(** * snooty/parser.py: the reStructuredText front end

    A shallow embedding of [snooty/parser.py]: the role node builder, the
    option recovery parser [parse_options], the generic directive builder
    [Directive.run], the docstring re-basing [prepare_viewlist], the legacy
    tabs migration [TabsDirective.run] and the name resolution overrides.

    Python strings are sequences of code points; the two regular expressions
    of the module and the field-marker pattern read from docutils are written
    as regular-expression terms and run by a backtracking matcher with the
    priorities of Python's [re]. *)

From Stdlib Require Import String Ascii.
From Stdlib Require Import List NArith ZArith Bool Lia.
Import ListNotations.

Set Warnings "-register-all".

(** ** Python strings *)

Module Py.

Definition char := N.
Definition str := list char.

Definition ch (a : ascii) : char := N_of_ascii a.
Definition lit (s : string) : str := map N_of_ascii (list_ascii_of_string s).

Definition NUL : char := 0%N.
Definition TAB : char := 9%N.
Definition LF : char := 10%N.
Definition CR : char := 13%N.
Definition SP : char := 32%N.

Definition str_eqb (a b : str) : bool :=
  if list_eq_dec N.eq_dec a b then true else false.

(** [str.isspace] on one code point, also the class [\s] of [re] on [str]
    patterns: the code points of bidirectional type WS, B or S, and of
    category Zs. *)
Definition isspace (c : char) : bool :=
  ((9 <=? c) && (c <=? 13) || (28 <=? c) && (c <=? 32)
   || (c =? 133) || (c =? 160) || (c =? 5760)
   || (8192 <=? c) && (c <=? 8202)
   || (c =? 8232) || (c =? 8233) || (c =? 8239) || (c =? 8287)
   || (c =? 12288))%N.

Fixpoint dropwhile (p : char -> bool) (s : str) : str :=
  match s with
  | [] => []
  | c :: s' => if p c then dropwhile p s' else s
  end.

Fixpoint takewhile (p : char -> bool) (s : str) : str :=
  match s with
  | [] => []
  | c :: s' => if p c then c :: takewhile p s' else []
  end.

(** [s.lstrip()], [s.rstrip()], [s.strip()] and [s.strip(chars)]. *)
Definition lstrip (s : str) : str := dropwhile isspace s.
Definition rstrip (s : str) : str := rev (dropwhile isspace (rev s)).
Definition strip (s : str) : str := rstrip (lstrip s).
Definition strip_chars (p : char -> bool) (s : str) : str :=
  rev (dropwhile p (rev (dropwhile p s))).

(** [s.split(sep)] for a separator of one character. *)
Fixpoint split (sep : char) (s : str) : list str :=
  match s with
  | [] => [[]]
  | c :: s' =>
      if (c =? sep)%N then [] :: split sep s'
      else match split sep s' with
           | l :: ls => (c :: l) :: ls
           | [] => [[c]]
           end
  end.

(** [s.split(sep, 1)]: at most one split. *)
Fixpoint split1 (sep : char) (s : str) : list str :=
  match s with
  | [] => [[]]
  | c :: s' =>
      if (c =? sep)%N then [[]; s']
      else match split1 sep s' with
           | l :: ls => (c :: l) :: ls
           | [] => [[c]]
           end
  end.

(** [sep.join(parts)]. *)
Fixpoint join (sep : str) (parts : list str) : str :=
  match parts with
  | [] => []
  | [p] => p
  | p :: ps => p ++ sep ++ join sep ps
  end.

Fixpoint startswith (s prefix : str) : bool :=
  match prefix, s with
  | [], _ => true
  | p :: prefix', c :: s' => (c =? p)%N && startswith s' prefix'
  | _ :: _, [] => false
  end.

(** [s.expandtabs()] with the default tab size 8: the column restarts after
    a line feed or a carriage return. *)
Fixpoint expandtabs_from (col : nat) (s : str) : str :=
  match s with
  | [] => []
  | c :: s' =>
      if (c =? TAB)%N then
        let incr := 8 - Nat.modulo col 8 in
        repeat SP incr ++ expandtabs_from (col + incr) s'
      else
        c :: expandtabs_from (if (c =? LF)%N || (c =? CR)%N then 0 else col + 1) s'
  end.

Definition expandtabs (s : str) : str := expandtabs_from 0 s.

(** The line boundaries of [str.splitlines]. *)
Definition is_linebreak (c : char) : bool :=
  ((10 <=? c) && (c <=? 13) || (28 <=? c) && (c <=? 30)
   || (c =? 133) || (c =? 8232) || (c =? 8233))%N.

(** [s.splitlines()]: [cur] is the line under construction, reversed; a
    carriage return followed by a line feed is one boundary, and a final
    boundary opens no empty last line. *)
Fixpoint splitlines_from (cur : str) (s : str) : list str :=
  match s with
  | [] => match cur with [] => [] | _ => [rev cur] end
  | c :: s' =>
      if is_linebreak c then
        rev cur ::
        match s' with
        | c' :: s'' =>
            if (c =? CR)%N && (c' =? LF)%N then splitlines_from [] s''
            else splitlines_from [] s'
        | [] => []
        end
      else splitlines_from (c :: cur) s'
  end.

Definition splitlines (s : str) : list str := splitlines_from [] s.

(** [len] as a Python integer. *)
Definition len {A} (l : list A) : Z := Z.of_nat (length l).

End Py.
Import Py.

(** ** Regular expressions

    The fragment of Python's [re] the module uses.  [run r s] lists the ways
    [r] can match from the state [s], in the order a backtracking matcher
    tries them; [re.match] takes the first. *)

Module Re.

Inductive regex : Type :=
| Eps
| Cls (p : char -> bool)               (* a character class, [.], [\s], a literal *)
| Seq (a b : regex)
| Alt (a b : regex)                    (* [a|b] *)
| Star (greedy : bool) (a : regex)     (* [a*] and [a*?] *)
| Named (name : string) (a : regex)    (* [(?P<name>a)] *)
| Ahead (want : bool) (a : regex)      (* [(?=a)] and [(?!a)] *)
| Behind (want : bool) (p : char -> bool)  (* [(?<=c)] and [(?<!c)], one character *)
| Bol                                  (* [^] without MULTILINE *)
| Eol.                                 (* [$] without MULTILINE *)

Definition Chr (c : char) : regex := Cls (N.eqb c).
Definition Plus (greedy : bool) (a : regex) : regex := Seq a (Star greedy a).

(** A matcher state: the text consumed so far (last character first), the
    text ahead, and the named groups closed so far (latest first). *)
Record mstate : Type := MState {
  seen : str;
  rest : str;
  caps : list (string * str)
}.

Definition start (text : str) : mstate := MState [] text [].

Definition advance (k : nat) (s : mstate) : mstate :=
  MState (rev (firstn k (rest s)) ++ seen s) (skipn k (rest s)) (caps s).

Definition close_group (name : string) (s s' : mstate) : mstate :=
  MState (seen s') (rest s')
         ((name, firstn (length (rest s) - length (rest s')) (rest s)) :: caps s').

(** The iterations of [a*] and [a*?], [once] being one match of [a]: a
    greedy star tries one more iteration before it stops, a lazy one stops
    first.  An iteration consumes at least one character, so the length of
    the text ahead bounds their number. *)
Fixpoint star_loop (once : mstate -> list mstate) (greedy : bool)
                   (fuel : nat) (s : mstate) {struct fuel} : list mstate :=
  match fuel with
  | O => [s]
  | S fuel' =>
      let more :=
        flat_map (fun s' =>
                    if (length (rest s') <? length (rest s))%nat
                    then star_loop once greedy fuel' s' else [])
                 (once s) in
      if greedy then more ++ [s] else s :: more
  end.

Fixpoint run (r : regex) (s : mstate) {struct r} : list mstate :=
  match r with
  | Eps => [s]
  | Cls p =>
      match rest s with
      | c :: cs => if p c then [MState (c :: seen s) cs (caps s)] else []
      | [] => []
      end
  | Seq a b => flat_map (run b) (run a s)
  | Alt a b => run a s ++ run b s
  | Star greedy a => star_loop (run a) greedy (length (rest s)) s
  | Named name a => map (close_group name s) (run a s)
  | Ahead want a =>
      match run a s with
      | [] => if want then [] else [s]
      | _ :: _ => if want then [s] else []
      end
  | Behind want p =>
      let b := match seen s with c :: _ => p c | [] => false end in
      if Bool.eqb b want then [s] else []
  | Bol => match seen s with [] => [s] | _ :: _ => [] end
  | Eol =>
      match rest s with
      | [] => [s]
      | [c] => if (c =? LF)%N then [s] else []
      | _ => []
      end
  end.

(** A match object: group 0 and the named groups. *)
Record Match : Type := MkMatch {
  m_whole : str;
  m_groups : list (string * str)
}.

(** [pattern.match(text)] and [re.match(pattern, text)]: anchored at the
    start of the text, [None] when nothing matches. *)
Definition re_match (r : regex) (text : str) : option Match :=
  match run r (start text) with
  | s :: _ => Some (MkMatch (rev (seen s)) (caps s))
  | [] => None
  end.

(** [m.group(0)]: [None] stands for a group that took no part. *)
Definition group0 (m : Match) : option str := Some (m_whole m).

(** [m[name]]. *)
Fixpoint lookup (name : string) (l : list (string * str)) : option str :=
  match l with
  | [] => None
  | (n, v) :: l' => if String.eqb n name then Some v else lookup name l'
  end.

Definition named (m : Match) (name : string) : option str :=
  lookup name (m_groups m).

End Re.
Import Re.

Declare Scope re_scope.
Delimit Scope re_scope with re.
Infix ">>" := Seq (at level 61, right associativity) : re_scope.

(** ** The patterns *)

Definition any_char : regex := Cls (fun _ => true).           (* [.] under DOTALL *)
Definition dot : regex := Cls (fun c => negb (c =? LF)%N).     (* [.] *)
Definition whitespace : regex := Cls isspace.                  (* [\s] *)

(** [PAT_EXPLICIT_TILE = re.compile(r'^(?P<label>.+?)\s*(?<!\x00)<(?P<target>.*?)>$', re.DOTALL)] *)
Definition PAT_EXPLICIT_TILE : regex :=
  (Bol >> Named "label" (Plus false any_char) >> Star true whitespace >>
   Behind false (N.eqb NUL) >> Chr (ch "<") >>
   Named "target" (Star false any_char) >> Chr (ch ">") >> Eol)%re.

(** [PAT_WHITESPACE = re.compile(r'^\x20*')] *)
Definition PAT_WHITESPACE : regex := (Bol >> Star true (Chr SP))%re.

(** [docutils.parsers.rst.states.Body.patterns['field_marker']], the pattern
    docutils ships: [:(?![: ])([^:\\]|\\.|:(?!([ `]|$)))*(?<! ):( +|$)].  Its
    groups are not named and never read, so they only bracket.  The module
    reads the pattern from docutils when it runs: [parse_options] below takes
    it as a parameter, and this is the value it gets. *)
Definition field_marker : regex :=
  (Chr (ch ":") >>
   Ahead false (Cls (fun c => (c =? ch ":") || (c =? SP))%N) >>
   Star true
     (Alt (Cls (fun c => negb ((c =? ch ":") || (c =? ch "\"))%N))
        (Alt (Chr (ch "\") >> dot)
             (Chr (ch ":") >>
              Ahead false (Alt (Cls (fun c => (c =? SP) || (c =? ch "`"))%N) Eol)))) >>
   Behind false (N.eqb SP) >> Chr (ch ":") >>
   Alt (Plus true (Chr SP)) Eol)%re.

(** [SPECIAL_DIRECTIVES] *)
Definition SPECIAL_DIRECTIVES : list str :=
  [lit "code-block"; lit "include"; lit "tabs-drivers"; lit "tabs";
   lit "tabs-platforms"; lit "only"].

Definition str_in (s : str) (l : list str) : bool := existsb (str_eqb s) l.

(** ** Exceptions and dictionaries *)

Inductive exc : Type :=
| AssertionError
| KeyError
| IndexError
| TypeError
| Raised (what : str).   (* an exception out of a collaborator *)

Inductive result (A : Type) : Type :=
| Ok (a : A)
| Raise (e : exc).
Arguments Ok {A} a.
Arguments Raise {A} e.

Definition bind {A B} (m : result A) (k : A -> result B) : result B :=
  match m with
  | Ok a => k a
  | Raise e => Raise e
  end.

Notation "x <- m ;; k" := (bind m (fun x => k))
  (at level 62, m at next level, right associativity).

(** A [dict] with [str] keys keeps the order in which its keys were first
    inserted; assigning to a key it has replaces the value in place. *)
Definition dict (V : Type) : Type := list (str * V).

Fixpoint dict_get {V} (k : str) (d : dict V) : option V :=
  match d with
  | [] => None
  | (k', v) :: d' => if str_eqb k' k then Some v else dict_get k d'
  end.

Fixpoint dict_set {V} (k : str) (v : V) (d : dict V) : dict V :=
  match d with
  | [] => [(k, v)]
  | (k', v') :: d' =>
      if str_eqb k' k then (k', v) :: d' else (k', v') :: dict_set k v d'
  end.

(** ** The node tree *)

(** The value of an option: [parse_options] recovers strings, the tabs
    migration also stores [True]. *)
Inductive opt_value : Type :=
| OStr (s : str)
| OBool (b : bool).

(** The ['label'] attribute of a role: the dictionary
    [{'type': 'text', 'value': v, 'position': {'start': {'line': n}}}] of an
    explicit title, or the text itself. *)
Inductive role_label : Type :=
| LabelText (value : option str) (lineno : Z)
| LabelRaw (text : str).

(** The docutils nodes the module builds, with the attributes it sets;
    [other] stands for any node the markup engine returns. *)
Inductive Node : Type :=
| Text (data : str)
| paragraph (rawsource : str) (children : list Node)
| FixedTextElement (rawsource : str) (children : list Node) (source : str) (line : Z)
| directive_argument (rawsource : str) (children : list Node) (source : str) (line : Z)
| directive (name : str) (options : dict opt_value) (children : list Node)
            (source : str) (line : Z)
| role (name raw : str) (label : role_label) (target : option str)
| system_message (level : Z) (type : str) (children : list Node) (line : Z)
| other (tag : str) (children : list Node).

(** [node.astext()]: the text a node contains.  Elements join their
    children's text; a paragraph-level separator is not needed below. *)
Fixpoint astext (n : Node) : str :=
  match n with
  | Text data => data
  | role _ _ _ _ => []
  | paragraph _ c | FixedTextElement _ c _ _ | directive_argument _ c _ _
  | directive _ _ c _ _ | system_message _ _ c _ | other _ c =>
      (fix all (l : list Node) : str :=
         match l with
         | [] => []
         | x :: l' => astext x ++ all l'
         end) c
  end.

(** The names of all directive nodes of a tree, in document order. *)
Fixpoint directive_names (n : Node) : list str :=
  let deep := fix deep (l : list Node) : list str :=
                match l with
                | [] => []
                | x :: l' => directive_names x ++ deep l'
                end in
  match n with
  | Text _ | role _ _ _ _ => []
  | directive name _ c _ _ => name :: deep c
  | paragraph _ c | FixedTextElement _ c _ _ | directive_argument _ c _ _
  | system_message _ _ c _ | other _ c => deep c
  end.

(** ** The role node builder: [role.__init__] and [handle_role] *)

Definition role_init (name rawtext text : str) (lineno : Z) : Node :=
  match re_match PAT_EXPLICIT_TILE text with
  | Some m => role name text (LabelText (named m "label") lineno) (named m "target")
  | None => role name text (LabelRaw text) (Some text)
  end.

Definition handle_role (typ rawtext text : str) (lineno : Z) : list Node * list Node :=
  ([role_init typ rawtext text lineno], []).

(** ** Option recovery: [parse_options] *)

Record po_state : Type := PoState {
  current_key : option str;
  kv : dict str;
  base_indentation : Z
}.

(** What one turn of the [for] loop does to the loop itself. *)
Inductive flow : Type :=
| Continue (st : po_state)
| Break (st : po_state).

Definition flow_state (f : flow) : po_state :=
  match f with
  | Continue st | Break st => st
  end.

Section ParseOptions.

(** [docutils.parsers.rst.states.Body.patterns['field_marker']] *)
Variable field_marker_pattern : regex.

(** The body of [for i, line in enumerate(lines)]. *)
Definition po_body (i : nat) (line : str) (st : po_state) : result flow :=
  (* if i == 0: continue *)
  if (i =? 0)%nat then Ok (Continue st) else
  let stripped := strip line in
  match stripped with
  | [] => Ok (Continue st)             (* if not stripped: continue *)
  | _ :: _ =>
      match re_match PAT_WHITESPACE line with
      | None => Raise AssertionError   (* assert whitespace_match is not None *)
      | Some whitespace_match =>
          match group0 whitespace_match with
          | None => Raise TypeError    (* len(None) *)
          | Some g =>
              let indentation := len g in
              (* if base_indentation == 0: base_indentation = indentation *)
              let base :=
                if (base_indentation st =? 0)%Z then indentation
                else base_indentation st in
              match re_match field_marker_pattern stripped with
              | Some m =>
                  match group0 m with
                  | None => Raise AssertionError   (* assert current_key is not None *)
                  | Some key0 =>
                      let value := skipn (length key0) stripped in
                      let key := strip_chars (N.eqb (ch ":")) (strip key0) in
                      (* kv[current_key] = value; continue *)
                      Ok (Continue (PoState (Some key) (dict_set key value (kv st)) base))
                  end
              | None =>
                  if (indentation =? base)%Z
                  then Ok (Break (PoState (current_key st) (kv st) base))
                  else
                    (* elif current_key: neither None nor the empty string *)
                    match current_key st with
                    | Some ((_ :: _) as key) =>
                        (* kv[current_key] += '\n' + line[indentation:] *)
                        match dict_get key (kv st) with
                        | None => Raise KeyError
                        | Some v =>
                            Ok (Continue
                                  (PoState (Some key)
                                     (dict_set key
                                        (v ++ [LF] ++ skipn (Z.to_nat indentation) line)
                                        (kv st))
                                     base))
                        end
                    | _ => Ok (Continue (PoState (current_key st) (kv st) base))
                    end
              end
          end
      end
  end.

(** The loop from line [i] on: how it ends, by running out of lines
    ([Continue]) or at the [break], and the variables then. *)
Fixpoint po_loop (i : nat) (lines : list str) (st : po_state) : result flow :=
  match lines with
  | [] => Ok (Continue st)
  | line :: lines' =>
      match po_body i line st with
      | Raise e => Raise e
      | Ok (Break st') => Ok (Break st')
      | Ok (Continue st') => po_loop (S i) lines' st'
      end
  end.

Definition po_init : po_state := PoState None [] 0.

Definition parse_options (block_text : str) : result (dict str) :=
  f <- po_loop 0 (split LF block_text) po_init ;;
  Ok (kv (flow_state f)).

End ParseOptions.

(** ** Re-basing a legacy tab's content: [prepare_viewlist] *)

Definition sys_maxsize : Z := 2 ^ 63 - 1.

(** [lines[i] = v] for an index in range. *)
Fixpoint list_set {A} (i : nat) (v : A) (l : list A) : list A :=
  match l, i with
  | [], _ => []
  | _ :: l', O => v :: l'
  | x :: l', S i' => x :: list_set i' v l'
  end.

(** The first loop: the least indentation of the non-blank lines. *)
Definition margin_step (margin : Z) (line : str) : Z :=
  let content := len (lstrip line) in
  if (content =? 0)%Z then margin
  else let indent := (len line - content)%Z in Z.min margin indent.

Definition find_margin (lines : list str) : Z :=
  fold_left margin_step lines sys_maxsize.

(** [while lines and not lines[0]: lines.pop(0)] *)
Fixpoint pop_leading_empty (lines : list str) : list str :=
  match lines with
  | [] :: lines' => pop_leading_empty lines'
  | _ => lines
  end.

(** [if lines and lines[-1]: lines.append('')] *)
Definition append_separator (lines : list str) : list str :=
  match lines with
  | [] => lines
  | _ :: _ =>
      match last lines [] with
      | [] => lines
      | _ :: _ => lines ++ [[]]
      end
  end.

(** [prepare_viewlist] on an [ignore] that is not negative, as the default
    1 that [make_tab_node] leaves it at: nothing is raised there.
    [prepare_viewlist_int] below is the function on every integer. *)
Definition prepare_viewlist (text : str) (ignore : nat) : list str :=
  let lines := splitlines (expandtabs text) in
  let margin := find_margin (skipn ignore lines) in
  let lines :=
    fold_left (fun lines i =>
                 if (i <? length lines)%nat
                 then list_set i (lstrip (nth i lines [])) lines
                 else lines)
              (seq 0 ignore) lines in
  let lines :=
    if (margin <? sys_maxsize)%Z then
      fold_left (fun lines i =>
                   list_set i (skipn (Z.to_nat margin) (nth i lines [])) lines)
                (seq ignore (length lines - ignore)) lines
    else lines in
  append_separator (pop_leading_empty lines).

(** [l[i:]] for any integer [i]: a negative [i] counts from the end. *)
Definition slice_from {A} (i : Z) (l : list A) : list A :=
  if (0 <=? i)%Z then skipn (Z.to_nat i) l
  else skipn (length l - Z.to_nat (- i)) l.

(** [range(a, b)] *)
Definition range (a b : Z) : list Z :=
  map (fun k => (a + Z.of_nat k)%Z) (seq 0 (Z.to_nat (b - a))).

(** The position that [l[i]] reads and writes: a negative [i] counts from
    the end, and there is none when [i] is out of range. *)
Definition index_of {A} (i : Z) (l : list A) : option nat :=
  if (0 <=? i)%Z then
    if (i <? len l)%Z then Some (Z.to_nat i) else None
  else
    if (- len l <=? i)%Z then Some (Z.to_nat (len l + i)) else None.

(** [prepare_viewlist] on every integer [ignore].  With a negative [ignore]
    the margin is that of the last [-ignore] lines, [range(ignore)] is
    empty, and [range(ignore, len(lines))] starts below 0, where [lines[i]]
    is a line counted from the end, or raises [IndexError]. *)
Definition prepare_viewlist_int (text : str) (ignore : Z) : result (list str) :=
  let lines := splitlines (expandtabs text) in
  let margin := find_margin (slice_from ignore lines) in
  let lines :=
    fold_left (fun (lines : list str) i =>
                 if (i <? len lines)%Z
                 then list_set (Z.to_nat i) (lstrip (nth (Z.to_nat i) lines [])) lines
                 else lines)
              (range 0 ignore) lines in
  lines <-
    (if (margin <? sys_maxsize)%Z then
       fold_left (fun (state : result (list str)) i =>
                    lines <- state ;;
                    match index_of i lines with
                    | None => Raise IndexError
                    | Some j =>
                        Ok (list_set j (skipn (Z.to_nat margin) (nth j lines [])) lines)
                    end)
                 (range ignore (len lines)) (Ok lines)
     else Ok lines) ;;
  Ok (append_separator (pop_leading_empty lines)).

(** ** The directive builders *)

(** What a directive instance holds when docutils calls [run]. *)
Record Self : Type := MkSelf {
  name : str;
  arguments : list str;
  content : list str;
  lineno : Z;
  block_text : str;
  line_offset : Z        (* [self.state_machine.line_offset] *)
}.

(** [LegacyTabDefinition] and [LegacyTabsDefinition] *)
Record LegacyTabDefinition : Type := MkLegacyTab {
  tab_line : Z;          (* [__line__] *)
  id : str;
  title : option str;
  tab_content : str      (* [content] *)
}.

Record LegacyTabsDefinition : Type := MkLegacyTabs {
  tabs_line : Z;         (* [__line__] *)
  hidden : option bool;
  tabs : list LegacyTabDefinition
}.

(** A [LoadError]: [str(err)] and [getattr(err.bad_data, '__line__', None)]. *)
Record LoadError : Type := MkLoadError {
  err_str : str;
  bad_data_line : option Z
}.

(** The two directive classes. *)
Inductive directive_class : Type :=
| Directive
| TabsDirective.

Section Builders.

(** The collaborators: the markup engine of docutils and the [gizaparser]
    package, whose sources are not part of this module. *)
Variable field_marker_pattern : regex.
Variable get_source_and_line : Z -> str * Z.
Variable inline_text : str -> Z -> list Node * list Node.
(** [nested_parse block input_offset node] appends to [node] the nodes it
    parses from [block]: the function gives those nodes. *)
Variable nested_parse : list str -> Z -> list Node.
Variable yaml : Type.
Variable load_yaml : str -> result (list yaml).
Variable check_type : yaml -> LoadError + LegacyTabsDefinition.
(** [reporter.error(message, line=line)] builds a [system_message] of level
    3 around a paragraph with the message, and raises nothing below the
    halt level. *)
Definition reporter_error (message : str) (line : Z) : Node :=
  system_message 3 (lit "ERROR") [paragraph [] [Text message]] line.

(** [Directive.run].  [add_name] only acts on a ['name'] option of the
    directive instance, which neither class accepts, so it changes nothing. *)
Definition Directive_run (self : Self) : result (list Node) :=
  let '(source, line) := get_source_and_line (lineno self) in
  let argument :=
    match arguments self with
    | [] => []
    | a :: _ =>
        let argument_text := hd [] (split LF a) in
        let '(textnodes, messages) := inline_text argument_text (lineno self) in
        [directive_argument argument_text textnodes source line]
    end in
  options <- parse_options field_marker_pattern (block_text self) ;;
  (* the recovered strings, as option values *)
  let options := map (fun '(k, v) => (k, OStr v)) options in
  if str_in (name self) SPECIAL_DIRECTIVES then
    let raw := FixedTextElement [] [] source line in
    Ok [directive (name self) options (argument ++ [raw]) source line]
  else
    Ok [directive (name self) options
          (argument ++ nested_parse (content self) (line_offset self))
          source line].

(** [TabsDirective.make_tab_node] *)
Definition make_tab_node (self : Self) (source : str) (child : LegacyTabDefinition)
  : Node :=
  let line := (lineno self + tab_line child)%Z in
  let argument_text := id child in
  let '(textnodes, messages) := inline_text argument_text line in
  let argument := directive_argument argument_text textnodes source line in
  let content_lines := prepare_viewlist (tab_content child) 1 in
  directive (lit "tab") []
            (argument :: nested_parse content_lines (line_offset self))
            source line.

(** The heuristic [any(line == 'tabs:' for line in self.content)]. *)
Definition has_tabs_line (self : Self) : bool :=
  existsb (fun line => str_eqb line (lit "tabs:")) (content self).

(** The branch of [TabsDirective.run] for the old syntax. *)
Definition migrate_legacy_tabs (self : Self) : result (list Node) :=
  docs <- load_yaml (join [LF] (content self)) ;;
  match docs with
  | [] => Raise IndexError
  | parsed :: _ =>
      match check_type parsed with
      | inl err =>
          let line :=
            (lineno self
             + match bad_data_line err with Some l => l | None => 0 end
             + 1)%Z in
          let error_node := reporter_error (err_str err) line in
          Ok [error_node]
      | inr loaded =>
          let tabset := last (split1 (ch "-") (name self)) [] in
          let '(source, line) := get_source_and_line (lineno self) in
          let options : dict opt_value := [] in
          let options :=
            match hidden loaded with
            | Some true => dict_set (lit "hidden") (OBool true) options
            | _ => options
            end in
          let options :=
            match tabset with
            | [] => options
            | _ :: _ =>
                if negb (str_eqb tabset (lit "tabs"))
                then dict_set (lit "tabset") (OStr tabset) options
                else options
            end in
          Ok [directive (lit "tabs") options
                (map (make_tab_node self source) (tabs loaded))
                source line]
      end
  end.

(** [TabsDirective.run] *)
Definition TabsDirective_run (self : Self) : result (list Node) :=
  if has_tabs_line self then migrate_legacy_tabs self
  else Directive_run self.

(** What docutils does with the class a lookup returns. *)
Definition run_class (cls : directive_class) (self : Self) : result (list Node) :=
  match cls with
  | Directive => Directive_run self
  | TabsDirective => TabsDirective_run self
  end.

End Builders.

(** ** Name resolution: [lookup_directive] and [lookup_role]

    A lookup gives the class or the role function, or [None] when the name is
    unknown, and a list of messages.  The language module, the document, the
    line and the reporter docutils passes are not read. *)

Definition lookup_directive (directive_name : str)
  : option directive_class * list Node :=
  if startswith directive_name (lit "tabs") then (Some TabsDirective, [])
  else (Some Directive, []).

Definition role_function : Type := str -> str -> str -> Z -> list Node * list Node.

Definition lookup_role (role_name : str) : option role_function * list Node :=
  (Some handle_role, []).

(** ** Vocabulary of the statements *)

(** The number of leading spaces of a line, and whether a line is blank. *)
Definition indent_of (line : str) : Z := len (takewhile (N.eqb SP) line).

Definition blank (line : str) : bool :=
  match strip line with
  | [] => true
  | _ :: _ => false
  end.


(** The indentation of the first non-blank line that is indented at all,
    [0] when there is none. *)
Fixpoint base_of (lines : list str) : Z :=
  match lines with
  | [] => 0
  | l :: ls =>
      if blank l then base_of ls
      else if (indent_of l =? 0)%Z then base_of ls
      else indent_of l
  end.

(** The key and the value a matched field marker gives. *)
Definition marker_key (m : Match) : str :=
  strip_chars (N.eqb (ch ":")) (strip (m_whole m)).

Definition marker_value (m : Match) (stripped : str) : str :=
  skipn (length (m_whole m)) stripped.

(** The active key of a loop state is a key of its mapping. *)
Definition key_present (st : po_state) : Prop :=
  forall k, current_key st = Some k -> dict_get k (kv st) <> None.



(** The block of the scenario with its lines as they are written, and with
    its lines at the indentations [n], [m1] and [m2]. *)
Definition key_block_flush : str :=
  lit ".. x::" ++ [LF] ++ lit ":key: a" ++ [LF] ++ lit "   b" ++ [LF] ++ lit "   c".

Definition key_block (invocation : str) (n m1 m2 : nat) : str :=
  invocation ++ [LF] ++ repeat SP n ++ lit ":key: a" ++ [LF]
  ++ repeat SP m1 ++ lit "b" ++ [LF] ++ repeat SP m2 ++ lit "c".

Definition a_b_c : str := lit "a" ++ [LF] ++ lit "b" ++ [LF] ++ lit "c".

(** A block with an option, a line at the base indentation and a later
    option. *)
Definition figure_block : str :=
  lit ".. figure:: x" ++ [LF] ++ lit "   :alt: picture" ++ [LF]
  ++ lit "   caption" ++ [LF] ++ lit "   :width: 10".

(** The explicit-title form of a role text: a label that is not empty, a
    run of whitespace, [<] not right after the escape marker [\x00], a
    target, and [>] at the end of the text or before its final line feed. *)
Definition explicit_form (text label ws target tail : str) : Prop :=
  text = label ++ ws ++ [ch "<"] ++ target ++ [ch ">"] ++ tail
  /\ label <> []
  /\ forallb isspace ws = true
  /\ (tail = [] \/ tail = [LF])
  /\ last (label ++ ws) SP <> NUL.

(** [PAT_EXPLICIT_TILE] after its label. *)
Definition title_tail : regex :=
  (Star true whitespace >> Behind false (N.eqb NUL) >> Chr (ch "<") >>
   Named "target" (Star false any_char) >> Chr (ch ">") >> Eol)%re.

(** The state of the matcher after a label of [k] characters. *)
Definition after_label (text : str) (k : nat) : mstate :=
  MState (rev (firstn k text)) (skipn k text) [("label"%string, firstn k text)].

(** What the lookbehind [(?<!\x00)] asks of the text consumed so far (last
    character first). *)
Definition unescaped (sn : str) : Prop :=
  match sn with
  | c :: _ => (NUL =? c)%N = false
  | [] => True
  end.

(** The indentation [lstrip] removes, and the lines it leaves something of. *)
Definition indent (line : str) : nat := length (takewhile isspace line).

Definition nonblank (line : str) : bool :=
  match lstrip line with
  | [] => false
  | _ :: _ => true
  end.

(** The common leading margin of the non-blank lines, when there is one. *)
Fixpoint common_margin (lines : list str) : option nat :=
  match lines with
  | [] => None
  | l :: ls =>
      if nonblank l then
        match common_margin ls with
        | Some m => Some (Nat.min (indent l) m)
        | None => Some (indent l)
        end
      else common_margin ls
  end.

(** The lines re-based: the first one left-stripped, the later ones without
    their common margin. *)
Definition rebased (lines : list str) : list str :=
  match lines with
  | [] => []
  | first :: later =>
      lstrip first ::
      match common_margin later with
      | Some m => map (skipn m) later
      | None => later
      end
  end.

(** Lines that end with exactly one empty line. *)
Definition ends_with_one_blank (lines : list str) : Prop :=
  exists body, lines = body ++ [[]] /\ last body [SP] <> [].

(** A content that ends with empty lines, and an indented content. *)
Definition content_with_blank_end : str := lit "a" ++ [LF; LF; LF].

Definition indented_content : str :=
  lit "  first" ++ [LF] ++ lit "    second" ++ [LF] ++ lit "      third" ++ [LF].

(** A plain markup engine for the examples: the source is one file, line
    numbers are kept, inline text is one text node, and a nested parse
    gives one paragraph per line. *)
Definition plain_source_and_line (lineno : Z) : str * Z := (lit "index.rst", lineno).

Definition plain_inline_text (text : str) (lineno : Z) : list Node * list Node :=
  ([Text text], []).

Definition plain_nested_parse (block : list str) (input_offset : Z) : list Node :=
  map (fun l => paragraph l [Text l]) block.

(** Raw-content holders. *)
Definition is_raw (n : Node) : bool :=
  match n with
  | FixedTextElement _ _ _ _ => true
  | _ => false
  end.

(** The reading of the verbatim body: the directive node has one
    raw-content child, and the text it holds, as its children or as its raw
    source, is the body. *)
Definition rawsource_of (n : Node) : str :=
  match n with
  | paragraph r _ | FixedTextElement r _ _ _ | directive_argument r _ _ _ => r
  | _ => []
  end.

Definition holds_body_verbatim (out : result (list Node)) (body : str) : Prop :=
  exists nm opts kids src ln raw,
    out = Ok [directive nm opts kids src ln]
    /\ filter is_raw kids = [raw]
    /\ (astext raw = body \/ rawsource_of raw = body).

(** A code block, a legacy tabs directive and what [gizaparser] gives for
    it: two tabs, or an error at an item three lines down. *)
Definition code_block_self : Self :=
  MkSelf (lit "code-block") [lit "python"] [lit "x = 1"] 1
         (lit ".. code-block:: python" ++ [LF; LF] ++ lit "   x = 1") 2.

Definition legacy_tabs_self : Self :=
  MkSelf (lit "tabs-platforms") [] [lit "hidden: true"; lit "tabs:"; lit "  - id: x"]
         10 (lit ".. tabs-platforms::") 11.

Definition two_tabs : LegacyTabsDefinition :=
  MkLegacyTabs 0 (Some true)
    [MkLegacyTab 2 (lit "x") None (lit "X"); MkLegacyTab 5 (lit "y") None (lit "Y")].

Definition bad_tab : LoadError := MkLoadError (lit "bad type") (Some 3%Z).

(** A state of the matcher reached from another: the text consumed in
    between is the start of the text that was ahead. *)
Definition consumes (s s' : mstate) : Prop :=
  exists x, rest s = x ++ rest s' /\ seen s' = rev x ++ seen s.

(** An entry of the mapping that comes from a field-marker line of [lines]:
    the key is the marker's key, the value is the rest of the stripped line
    after the marker, followed by continuation text that starts on a new
    line. *)
Definition from_marker (fm : regex) (lines : list str) (k v : str) : Prop :=
  exists line m suffix,
    In line lines
    /\ re_match fm (strip line) = Some m
    /\ k = marker_key m
    /\ v = marker_value m (strip line) ++ suffix
    /\ (suffix = [] \/ exists s, suffix = LF :: s).

(** The lines re-based with the first [ignore] lines exempt from the
    margin: those are left-stripped, the others lose the common margin of
    the non-blank ones among them. *)
Definition rebased_with (ignore : nat) (lines : list str) : list str :=
  map lstrip (firstn ignore lines) ++
  match common_margin (skipn ignore lines) with
  | Some m => map (skipn m) (skipn ignore lines)
  | None => skipn ignore lines
  end.

(** A character that is neither a tab nor a line boundary. *)
Definition inline_char (c : char) : Prop := c <> TAB /\ is_linebreak c = false.

(** A directive whose argument runs over two lines. *)
Definition two_line_argument_self : Self :=
  MkSelf (lit "figure") [lit "a.png" ++ [LF] ++ lit "b.png"] [lit "caption"] 7
         (lit ".. figure:: a.png" ++ [LF] ++ lit "   b.png" ++ [LF; LF]
          ++ lit "   caption") 8.

(** A legacy tabs directive invoked under the family name alone. *)
Definition plain_tabs_self : Self :=
  MkSelf (lit "tabs") [] [lit "tabs:"; lit "  - id: x"] 20 (lit ".. tabs::") 21.

(** The tab-set family of directive names: [tabs] and the names
    [tabs-<suffix>]. *)
Definition tab_set_family (name : str) : Prop :=
  name = lit "tabs" \/ exists suffix, name = lit "tabs-" ++ suffix.

(** The reading of the resolution by which a name outside the family goes
    to the generic builder. *)
Definition other_names_are_generic : Prop :=
  forall name, ~ tab_set_family name -> fst (lookup_directive name) = Some Directive.

(** A directive invoked as [tabsfoo], with a legacy content. *)
Definition tabsfoo_self : Self :=
  MkSelf (lit "tabsfoo") [] [lit "tabs:"; lit "  - id: x"] 30 (lit ".. tabsfoo::") 31.

(** A block with the key [a], a continuation line, and then the key [a]
    again on a deeper line. *)
Definition duplicate_key_start : str :=
  lit ".. x::" ++ [LF] ++ lit "   :a: 1" ++ [LF] ++ lit "      more".

Definition duplicate_key_block : str :=
  duplicate_key_start ++ [LF] ++ lit "      :a: 2".

(** [out] is [lines] without the empty lines at its start, all of them, and
    with an empty line at its end: one is added when a line is left and the
    last line is not empty. *)
Definition trimmed (lines out : list str) : Prop :=
  exists k kept,
    lines = repeat [] k ++ kept
    /\ (forall first more, kept = first :: more -> first <> [])
    /\ (kept = [] -> out = [])
    /\ (kept <> [] -> last kept [] = [] -> out = kept)
    /\ (kept <> [] -> last kept [] <> [] -> out = kept ++ [[]]).

(** The lines after a call with a negative [ignore] in range: no line is
    left-stripped, the lines before the last [j] lose the margin [m] of the
    last [j] lines, and the last [j] lines lose it twice. *)
Definition cut_twice (j : nat) (lines : list str) : list str :=
  let early := firstn (length lines - j) lines in
  let late := skipn (length lines - j) lines in
  match common_margin late with
  | Some m => map (skipn m) early ++ map (fun l => skipn m (skipn m l)) late
  | None => lines
  end.

(** A text whose last line is indented and has text that the call with
    [ignore = -1] loses. *)
Definition last_line_indented : str :=
  lit "first" ++ [LF] ++ lit "  second".

(** * Properties *)

(** ** Lists, strings and dictionaries *)

Lemma str_eqb_eq (a b : str) : str_eqb a b = true <-> a = b.
Proof.
  unfold str_eqb. destruct (list_eq_dec N.eq_dec a b); split; congruence.
Qed.

Lemma str_eqb_refl (a : str) : str_eqb a a = true.
Proof. now apply str_eqb_eq. Qed.

Lemma str_eqb_neq (a b : str) : a <> b -> str_eqb a b = false.
Proof.
  unfold str_eqb. destruct (list_eq_dec N.eq_dec a b); congruence.
Qed.

Lemma dict_get_set_same {V} (k : str) (v : V) (d : dict V) :
  dict_get k (dict_set k v d) = Some v.
Proof.
  induction d as [|[k' v'] d IH]; simpl.
  - now rewrite str_eqb_refl.
  - destruct (str_eqb k' k) eqn:E; simpl; rewrite E; auto.
Qed.

Lemma dict_get_set_other {V} (k k' : str) (v : V) (d : dict V) :
  k' <> k -> dict_get k' (dict_set k v d) = dict_get k' d.
Proof.
  intros Hne. induction d as [|[k0 v0] d IH]; simpl.
  - rewrite str_eqb_neq; auto.
  - destruct (str_eqb k0 k) eqn:E; simpl.
    + apply str_eqb_eq in E. subst k0.
      rewrite str_eqb_neq; auto.
    + destruct (str_eqb k0 k'); auto.
Qed.

Lemma flat_map_none {A B} (f : A -> list B) (l : list A) :
  (forall x, In x l -> f x = []) -> flat_map f l = [].
Proof.
  induction l as [|x l IH]; simpl; intros H; auto.
  rewrite (H x), IH; auto.
Qed.

(** ** The matcher *)

Lemma star_loop_fuel once greedy n : forall m s,
  (length (rest s) <= n)%nat -> (length (rest s) <= m)%nat ->
  star_loop once greedy n s = star_loop once greedy m s.
Proof.
  induction n as [|n IH]; intros m s Hn Hm.
  - assert (E : length (rest s) = 0%nat) by lia.
    destruct m; simpl; auto.
    rewrite E, flat_map_none by reflexivity.
    now destruct greedy.
  - destruct m; simpl.
    + assert (E : length (rest s) = 0%nat) by lia.
      rewrite E, flat_map_none by reflexivity.
      now destruct greedy.
    + assert (E : forall s',
                 (if (length (rest s') <? length (rest s))%nat
                  then star_loop once greedy n s' else []) =
                 (if (length (rest s') <? length (rest s))%nat
                  then star_loop once greedy m s' else [])).
      { intros s'. destruct (length (rest s') <? length (rest s))%nat eqn:L; auto.
        apply Nat.ltb_lt in L. apply IH; lia. }
      now rewrite (flat_map_ext _ _ E).
Qed.

(** The equation of a star: one more iteration, or stop; in that order for
    a greedy star, in the reverse order for a lazy star. *)
Lemma run_star greedy a s :
  run (Star greedy a) s =
  let more :=
    flat_map (fun s' => if (length (rest s') <? length (rest s))%nat
                        then run (Star greedy a) s' else [])
             (run a s) in
  if greedy then more ++ [s] else s :: more.
Proof.
  change (run (Star greedy a) s)
    with (star_loop (run a) greedy (length (rest s)) s).
  cbv zeta.
  destruct (length (rest s)) as [|n] eqn:E; cbn [star_loop].
  - rewrite flat_map_none by reflexivity. now destruct greedy.
  - rewrite E.
    assert (F : forall s',
               (if (length (rest s') <? S n)%nat
                then star_loop (run a) greedy n s' else []) =
               (if (length (rest s') <? S n)%nat
                then run (Star greedy a) s' else [])).
    { intros s'. destruct (length (rest s') <? S n)%nat eqn:L; auto.
      apply Nat.ltb_lt in L.
      change (run (Star greedy a) s')
        with (star_loop (run a) greedy (length (rest s')) s').
      apply star_loop_fuel; lia. }
    now rewrite (flat_map_ext _ _ F).
Qed.

(** A star over a character class. *)
Lemma run_star_cls greedy p sn r cp :
  run (Star greedy (Cls p)) (MState sn r cp) =
  match r with
  | c :: cs =>
      if p c then
        if greedy
        then run (Star greedy (Cls p)) (MState (c :: sn) cs cp) ++ [MState sn r cp]
        else MState sn r cp :: run (Star greedy (Cls p)) (MState (c :: sn) cs cp)
      else [MState sn r cp]
  | [] => [MState sn r cp]
  end.
Proof.
  rewrite run_star. cbn [run rest seen caps].
  destruct r as [|c cs]; [now destruct greedy|].
  destruct (p c); [|now destruct greedy].
  cbn [flat_map rest length].
  assert (L : (length cs <? S (length cs))%nat = true) by (apply Nat.ltb_lt; lia).
  rewrite L, app_nil_r. reflexivity.
Qed.

(** A greedy star over a class first takes the longest run of the class. *)
Lemma greedy_cls_first p r : forall sn cp,
  exists others,
    run (Star true (Cls p)) (MState sn r cp) =
    MState (rev (takewhile p r) ++ sn) (skipn (length (takewhile p r)) r) cp
    :: others.
Proof.
  induction r as [|c cs IH]; intros sn cp; rewrite run_star_cls.
  - now exists [].
  - cbn [takewhile]. destruct (p c).
    + destruct (IH (c :: sn) cp) as [others E]. rewrite E.
      cbn [length skipn rev app]. rewrite <- app_assoc. cbn [app].
      eexists. reflexivity.
    + now exists [].
Qed.

(** [PAT_WHITESPACE] matches every line, and group 0 is its leading spaces. *)
Lemma PAT_WHITESPACE_match (line : str) :
  re_match PAT_WHITESPACE line = Some (MkMatch (takewhile (N.eqb SP) line) []).
Proof.
  unfold re_match, PAT_WHITESPACE, Chr.
  change (run (Bol >> Star true (Cls (N.eqb SP)))%re (start line))
    with (flat_map (run (Star true (Cls (N.eqb SP)))) [start line]).
  cbn [flat_map]. rewrite app_nil_r. unfold start.
  destruct (greedy_cls_first (N.eqb SP) line [] []) as [others E].
  rewrite E. cbn [seen caps]. now rewrite app_nil_r, rev_involutive.
Qed.

(** ** One turn of the option loop *)

Lemma po_body_eq fm (i : nat) (line : str) (st : po_state) :
  i <> 0%nat -> strip line <> [] ->
  po_body fm i line st =
  let base := if (base_indentation st =? 0)%Z then indent_of line
              else base_indentation st in
  match re_match fm (strip line) with
  | Some m =>
      Ok (Continue (PoState (Some (marker_key m))
                      (dict_set (marker_key m) (marker_value m (strip line)) (kv st))
                      base))
  | None =>
      if (indent_of line =? base)%Z
      then Ok (Break (PoState (current_key st) (kv st) base))
      else match current_key st with
           | Some (c :: k) =>
               match dict_get (c :: k) (kv st) with
               | None => Raise KeyError
               | Some v =>
                   Ok (Continue
                         (PoState (Some (c :: k))
                            (dict_set (c :: k)
                               (v ++ [LF] ++ skipn (Z.to_nat (indent_of line)) line)
                               (kv st))
                            base))
               end
           | _ => Ok (Continue (PoState (current_key st) (kv st) base))
           end
  end.
Proof.
  intros Hi Hs. unfold po_body.
  destruct i as [|i]; [congruence|]. cbn [Nat.eqb].
  destruct (strip line) as [|c0 s0] eqn:E; [congruence|].
  rewrite PAT_WHITESPACE_match. cbn [group0 m_whole].
  fold (indent_of line). cbv zeta.
  destruct (re_match fm (c0 :: s0)) as [m|]; [reflexivity|].
  destruct (indent_of line =? _)%Z; [reflexivity|].
  destruct (current_key st) as [[|c k]|]; reflexivity.
Qed.

Lemma po_body_skips fm (i : nat) (line : str) (st : po_state) :
  i = 0%nat \/ strip line = [] -> po_body fm i line st = Ok (Continue st).
Proof.
  unfold po_body. intros [-> | E]; [reflexivity|].
  rewrite E. now destruct (i =? 0)%nat.
Qed.

Lemma po_body_ok fm (i : nat) (line : str) (st : po_state) :
  key_present st ->
  exists f, po_body fm i line st = Ok f /\ key_present (flow_state f).
Proof.
  intros Hkey.
  destruct (Nat.eq_dec i 0) as [Hi|Hi];
    [exists (Continue st); split; [apply po_body_skips|]; auto|].
  destruct (strip line) as [|c0 s0] eqn:Hs;
    [exists (Continue st); split; [apply po_body_skips|]; auto|].
  rewrite po_body_eq by congruence. cbv zeta. rewrite Hs.
  destruct (re_match fm (c0 :: s0)) as [m|].
  - eexists. split; [reflexivity|].
    intros k Hk. cbn in Hk |- *. injection Hk as <-.
    now rewrite dict_get_set_same.
  - destruct (indent_of line =? _)%Z.
    + eexists. split; [reflexivity|]. exact Hkey.
    + destruct (current_key st) as [[|c k]|] eqn:Hck.
      * eexists. split; [reflexivity|].
        intros k' Hk'. cbn in Hk' |- *. apply Hkey. congruence.
      * destruct (dict_get (c :: k) (kv st)) as [v|] eqn:Hget.
        -- eexists. split; [reflexivity|].
           intros k' Hk'. cbn in Hk' |- *. injection Hk' as <-.
           now rewrite dict_get_set_same.
        -- exfalso. now apply (Hkey (c :: k)).
      * eexists. split; [reflexivity|].
        intros k' Hk'. cbn in Hk'. congruence.
Qed.

Lemma po_loop_ok fm (lines : list str) : forall (i : nat) (st : po_state),
  key_present st ->
  exists f, po_loop fm i lines st = Ok f /\ key_present (flow_state f).
Proof.
  induction lines as [|line lines IH]; intros i st Hkey; cbn [po_loop].
  - now exists (Continue st).
  - destruct (po_body_ok fm i line st Hkey) as [f [E Hf]]. rewrite E.
    destruct f as [st'|st'].
    + now apply IH.
    + now exists (Break st').
Qed.

Lemma po_init_key_present : key_present po_init.
Proof. intros k Hk. discriminate Hk. Qed.

(** ** Totality of option recovery *)

(** C9: [parse_options] is total.  Whatever the field-marker pattern, every
    block text gives a mapping and nothing is raised: the leading-whitespace
    pattern matches every line, group 0 of a matched field marker is always
    there, and in every state the loop reaches the active key is a key of
    the mapping, so the look-up of the appending branch finds it. *)
Theorem parse_options_total (fm : regex) :
  (forall block_text, exists options, parse_options fm block_text = Ok options)
  /\ (forall line, exists m, re_match PAT_WHITESPACE line = Some m)
  /\ (forall stripped m,
        re_match fm stripped = Some m -> exists key0, group0 m = Some key0)
  /\ (forall lines f,
        po_loop fm 0 lines po_init = Ok f ->
        forall key, current_key (flow_state f) = Some key ->
                    exists v, dict_get key (kv (flow_state f)) = Some v).
Proof.
  repeat split.
  - intros block_text. unfold parse_options.
    destruct (po_loop_ok fm (split LF block_text) 0 po_init po_init_key_present)
      as [f [E _]].
    rewrite E. cbn [bind]. now eexists.
  - intros line. rewrite PAT_WHITESPACE_match. now eexists.
  - intros stripped m _. now exists (m_whole m).
  - intros lines f E key Hkey.
    destruct (po_loop_ok fm lines 0 po_init po_init_key_present) as [f' [E' Hf]].
    assert (f' = f) by congruence. subst f'.
    specialize (Hf key Hkey).
    destruct (dict_get key (kv (flow_state f))) as [v|]; [now exists v|congruence].
Qed.

(** ** The base indentation and the end of option recovery *)

Lemma po_loop_app fm (pre post : list str) : forall (i : nat) (st : po_state),
  po_loop fm i (pre ++ post) st =
  match po_loop fm i pre st with
  | Ok (Continue st') => po_loop fm (i + length pre) post st'
  | stopped => stopped
  end.
Proof.
  induction pre as [|l pre IH]; intros i st; cbn [app po_loop length].
  - now rewrite Nat.add_0_r.
  - destruct (po_body fm i l st) as [[st'|st']|e]; auto.
    rewrite IH. now replace (S i + length pre)%nat with (i + S (length pre))%nat by lia.
Qed.

Lemma base_of_app_one (pre : list str) (t : str) :
  blank t = false ->
  base_of (pre ++ [t]) = if (base_of pre =? 0)%Z then indent_of t else base_of pre.
Proof.
  intros Ht. induction pre as [|l pre IH]; cbn [app base_of].
  - rewrite Ht. cbn [Z.eqb].
    destruct (indent_of t =? 0)%Z eqn:E; auto.
    apply Z.eqb_eq in E. congruence.
  - destruct (blank l); auto.
    destruct (indent_of l =? 0)%Z eqn:E; auto.
    now rewrite E.
Qed.


(** While recovery runs, the base indentation is the first indentation
    that is not 0. *)
Lemma po_loop_base fm (pre : list str) : forall (i : nat) (st st' : po_state),
  i <> 0%nat ->
  po_loop fm i pre st = Ok (Continue st') ->
  base_indentation st' =
  if (base_indentation st =? 0)%Z then base_of pre else base_indentation st.
Proof.
  induction pre as [|l pre IH]; intros i st st' Hi; cbn [po_loop base_of].
  - intros [= ->]. now destruct (base_indentation st' =? 0)%Z eqn:E;
      [apply Z.eqb_eq in E|].
  - unfold blank. destruct (strip l) as [|c0 s0] eqn:Hs.
    + rewrite po_body_skips by auto. now apply IH.
    + rewrite po_body_eq by congruence. cbv zeta. rewrite Hs.
      set (base := if (base_indentation st =? 0)%Z then indent_of l
                   else base_indentation st).
      assert (Hbase :
                (if (base =? 0)%Z then base_of pre else base) =
                (if (base_indentation st =? 0)%Z
                 then if (indent_of l =? 0)%Z then base_of pre else indent_of l
                 else base_indentation st)).
      { subst base. destruct (base_indentation st =? 0)%Z eqn:E; auto.
        now rewrite E. }
      rewrite <- Hbase.
      destruct (re_match fm (c0 :: s0)) as [m|].
      * intros H. now apply IH in H.
      * destruct (indent_of l =? base)%Z; [discriminate|].
        destruct (current_key st) as [[|c k]|];
          try (intros H; now apply IH in H).
        destruct (dict_get (c :: k) (kv st)); [|discriminate].
        intros H. now apply IH in H.
Qed.




(** ** Field markers and indentation *)

(** One turn of the loop on a line that matches the field-marker pattern. *)
Lemma po_body_marker fm (i : nat) (line : str) (st : po_state) (m : Match) :
  i <> 0%nat -> strip line <> [] -> re_match fm (strip line) = Some m ->
  po_body fm i line st =
  Ok (Continue (PoState (Some (marker_key m))
                  (dict_set (marker_key m) (marker_value m (strip line)) (kv st))
                  (if (base_indentation st =? 0)%Z then indent_of line
                   else base_indentation st))).
Proof.
  intros Hi Hs Hm. rewrite po_body_eq by assumption. cbv zeta. now rewrite Hm.
Qed.

(** C10: a line that matches the field-marker pattern starts a new key
    whatever its indentation.  When option recovery reaches such a line, the
    mapping of the block up to and with that line gives the key the rest of
    the line, and nothing else, as its value, whatever value the key had
    before (a duplicate key is overwritten), and gives every other key, the
    one that was active included, the value it has in the mapping of the
    block up to the line: nothing is appended to it.  The key is then the
    active one: a next line that is no field marker and is not at the base
    indentation is appended to the new key's value. *)
Theorem field_marker_starts_new_key fm (before block_text inv : str)
        (pre : list str) (line : str) (st : po_state) (m : Match) :
  split LF before = inv :: pre ->
  split LF block_text = inv :: pre ++ [line] ->
  po_loop fm 1 pre po_init = Ok (Continue st) ->
  blank line = false -> re_match fm (strip line) = Some m ->
  exists earlier options,
    parse_options fm before = Ok earlier
    /\ parse_options fm block_text = Ok options
    /\ dict_get (marker_key m) options = Some (marker_value m (strip line))
    /\ (forall k, k <> marker_key m -> dict_get k options = dict_get k earlier)
    /\ (forall longer next,
          split LF longer = inv :: pre ++ [line; next] ->
          blank next = false -> re_match fm (strip next) = None ->
          marker_key m <> [] ->
          base_of (pre ++ [line]) <> 0%Z ->
          indent_of next <> base_of (pre ++ [line]) ->
          exists options',
            parse_options fm longer = Ok options'
            /\ dict_get (marker_key m) options' =
               Some (marker_value m (strip line) ++ [LF]
                     ++ skipn (Z.to_nat (indent_of next)) next)
            /\ (forall k, k <> marker_key m ->
                          dict_get k options' = dict_get k earlier)).
Proof.
  intros Hbefore Hblock Hpre Hblank Hm.
  assert (Hs : strip line <> []).
  { unfold blank in Hblank. now destruct (strip line). }
  assert (Hbase : base_indentation st = base_of pre).
  { rewrite (po_loop_base fm pre 1 po_init st); auto. }
  exists (kv st), (dict_set (marker_key m) (marker_value m (strip line)) (kv st)).
  split; [|split; [|split; [|split]]].
  - unfold parse_options. rewrite Hbefore. cbn [po_loop].
    rewrite po_body_skips by auto. now rewrite Hpre.
  - unfold parse_options. rewrite Hblock. cbn [po_loop].
    rewrite po_body_skips by auto. rewrite po_loop_app, Hpre. cbn [po_loop].
    rewrite (po_body_marker fm _ line st m) by (auto; lia). reflexivity.
  - apply dict_get_set_same.
  - intros k Hk. now apply dict_get_set_other.
  - intros longer next Hlonger Hnb Hnone Hkey Hb0 Hind.
    assert (Hs' : strip next <> []).
    { unfold blank in Hnb. now destruct (strip next). }
    rewrite (base_of_app_one pre line Hblank), <- Hbase in Hb0, Hind.
    exists (dict_set (marker_key m)
              (marker_value m (strip line) ++ [LF]
               ++ skipn (Z.to_nat (indent_of next)) next)
              (dict_set (marker_key m) (marker_value m (strip line)) (kv st))).
    split; [|split].
    + unfold parse_options. rewrite Hlonger. cbn [po_loop].
      rewrite po_body_skips by auto. rewrite po_loop_app, Hpre. cbn [po_loop].
      rewrite (po_body_marker fm _ line st m) by (auto; lia).
      rewrite po_body_eq by (auto; lia). cbv zeta.
      cbn [base_indentation current_key kv]. rewrite Hnone.
      apply Z.eqb_neq in Hb0. rewrite Hb0.
      apply Z.eqb_neq in Hind. rewrite Hind.
      destruct (marker_key m) as [|c0 k0] eqn:Ek; [congruence|].
      rewrite dict_get_set_same. reflexivity.
    + apply dict_get_set_same.
    + intros k Hk.
      rewrite dict_get_set_other by assumption. now apply dict_get_set_other.
Qed.

(** A duplicate key on a line deeper than the base indentation, while that
    key is active and has a continuation line. *)
Lemma field_marker_starts_new_key_witness :
  exists earlier options,
    parse_options field_marker duplicate_key_start = Ok earlier
    /\ parse_options field_marker duplicate_key_block = Ok options
    /\ dict_get (lit "a") options = Some (lit "2")
    /\ (forall k, k <> lit "a" -> dict_get k options = dict_get k earlier)
    /\ (forall longer next,
          split LF longer =
            lit ".. x::" :: [lit "   :a: 1"; lit "      more"]
                            ++ [lit "      :a: 2"; next] ->
          blank next = false -> re_match field_marker (strip next) = None ->
          lit "a" <> [] ->
          base_of ([lit "   :a: 1"; lit "      more"] ++ [lit "      :a: 2"]) <> 0%Z ->
          indent_of next <>
            base_of ([lit "   :a: 1"; lit "      more"] ++ [lit "      :a: 2"]) ->
          exists options',
            parse_options field_marker longer = Ok options'
            /\ dict_get (lit "a") options' =
               Some (lit "2" ++ [LF] ++ skipn (Z.to_nat (indent_of next)) next)
            /\ (forall k, k <> lit "a" ->
                          dict_get k options' = dict_get k earlier)).
Proof.
  refine (field_marker_starts_new_key field_marker
            duplicate_key_start duplicate_key_block (lit ".. x::")
            [lit "   :a: 1"; lit "      more"] (lit "      :a: 2")
            (PoState (Some (lit "a")) [(lit "a", lit "1" ++ [LF] ++ lit "more")] 3)
            (MkMatch (lit ":a: ") []) _ _ _ _ _);
    vm_compute; reflexivity.
Defined.

(** ** Continuation lines *)

Lemma split_app_sep (a b : str) :
  ~ In LF a -> split LF (a ++ LF :: b) = a :: split LF b.
Proof.
  induction a as [|c a IH]; intros H; cbn [app split].
  - now rewrite N.eqb_refl.
  - destruct (c =? LF)%N eqn:E.
    + apply N.eqb_eq in E. subst c. exfalso. apply H. now left.
    + rewrite IH; auto. intros Hin. apply H. now right.
Qed.

Lemma split_no_sep (a : str) : ~ In LF a -> split LF a = [a].
Proof.
  induction a as [|c a IH]; intros H; cbn [split]; auto.
  destruct (c =? LF)%N eqn:E.
  - apply N.eqb_eq in E. subst c. exfalso. apply H. now left.
  - rewrite IH; auto. intros Hin. apply H. now right.
Qed.

Lemma no_LF_in_spaces (n : nat) (s : str) :
  ~ In LF s -> ~ In LF (repeat SP n ++ s).
Proof.
  intros Hs Hin. apply in_app_or in Hin. destruct Hin as [Hin|Hin]; auto.
  apply repeat_spec in Hin. discriminate Hin.
Qed.

Lemma strip_spaces (n : nat) (s : str) : strip (repeat SP n ++ s) = strip s.
Proof.
  unfold strip, lstrip. f_equal.
  induction n as [|n IH]; cbn [repeat app dropwhile]; auto.
Qed.

Lemma takewhile_spaces (n : nat) (c : char) (s : str) :
  c <> SP -> takewhile (N.eqb SP) (repeat SP n ++ c :: s) = repeat SP n.
Proof.
  intros Hc. induction n as [|n IH]; cbn [repeat app takewhile].
  - apply N.eqb_neq in Hc. rewrite N.eqb_sym in Hc. now rewrite Hc.
  - rewrite N.eqb_refl. now f_equal.
Qed.

Lemma indent_of_spaces (n : nat) (c : char) (s : str) :
  c <> SP -> indent_of (repeat SP n ++ c :: s) = Z.of_nat n.
Proof.
  intros Hc. unfold indent_of, len.
  now rewrite takewhile_spaces, repeat_length.
Qed.

Lemma skipn_spaces (n : nat) (s : str) : skipn n (repeat SP n ++ s) = s.
Proof. induction n; cbn [repeat app skipn]; auto. Qed.

(** A line deeper or shallower than the base indentation, no field marker,
    under an active key: its text joins the key's value on a new line. *)
Lemma po_body_continuation fm (i n m : nat) (key v : str) (c : char) (w : str) :
  i <> 0%nat -> (1 <= n)%nat -> m <> n ->
  key <> [] -> c <> SP -> strip (c :: w) = c :: w ->
  re_match fm (c :: w) = None ->
  po_body fm i (repeat SP m ++ c :: w) (PoState (Some key) [(key, v)] (Z.of_nat n)) =
  Ok (Continue (PoState (Some key) [(key, v ++ [LF] ++ c :: w)] (Z.of_nat n))).
Proof.
  intros Hi Hn Hm Hkey Hc Hstrip Hfm.
  rewrite po_body_eq; auto.
  2: { rewrite strip_spaces, Hstrip. discriminate. }
  cbv zeta. cbn [base_indentation current_key kv].
  rewrite strip_spaces, Hstrip, Hfm, indent_of_spaces by assumption.
  assert (E0 : (Z.of_nat n =? 0)%Z = false) by (apply Z.eqb_neq; lia).
  assert (E1 : (Z.of_nat m =? Z.of_nat n)%Z = false) by (apply Z.eqb_neq; lia).
  rewrite E0, E1.
  destruct key as [|k0 key]; [congruence|].
  cbn [dict_get dict_set]. rewrite str_eqb_refl.
  now rewrite Nat2Z.id, skipn_spaces.
Qed.

(** C8: in a directive block whose body is the line [:key: a], indented as
    the lines of a directive block after the first are, followed by the
    lines [b] and [c] indented deeper, option recovery gives [key] the value
    of the three texts joined by line feeds, each continuation line without
    its own indentation, whatever the three indentations and the invocation
    line are. *)
Theorem continuation_lines_join (invocation : str) (n m1 m2 : nat) :
  ~ In LF invocation ->
  (1 <= n)%nat -> (n < m1)%nat -> (n < m2)%nat ->
  parse_options field_marker (key_block invocation n m1 m2) =
  Ok [(lit "key", a_b_c)].
Proof.
  intros Hinv Hn Hm1 Hm2. unfold parse_options, key_block.
  assert (Hlit : forall s, (forallb (fun c => negb (c =? LF)%N) s = true) -> ~ In LF s).
  { intros s Hall Hin. rewrite forallb_forall in Hall.
    specialize (Hall LF Hin). discriminate Hall. }
  cbn [app].
  rewrite split_app_sep by assumption.
  rewrite (app_assoc (repeat SP n)), split_app_sep
    by (apply no_LF_in_spaces, Hlit; reflexivity).
  rewrite (app_assoc (repeat SP m1)), split_app_sep
    by (apply no_LF_in_spaces, Hlit; reflexivity).
  rewrite split_no_sep by (apply no_LF_in_spaces, Hlit; reflexivity).
  cbn [po_loop]. rewrite po_body_skips by auto.
  (* the line [:key: a] *)
  rewrite po_body_eq; [|discriminate|rewrite strip_spaces; vm_compute; discriminate].
  cbv zeta. rewrite strip_spaces.
  replace (re_match field_marker (strip (lit ":key: a")))
    with (Some (MkMatch (lit ":key: ") [])) by (vm_compute; reflexivity).
  replace (indent_of (repeat SP n ++ lit ":key: a")) with (Z.of_nat n)
    by (symmetry; apply (indent_of_spaces n (ch ":") (lit "key: a")); discriminate).
  change (base_indentation po_init =? 0)%Z with true. cbv iota.
  replace (marker_key (MkMatch (lit ":key: ") [])) with (lit "key")
    by (vm_compute; reflexivity).
  replace (marker_value (MkMatch (lit ":key: ") []) (strip (lit ":key: a")))
    with (lit "a") by (vm_compute; reflexivity).
  change (dict_set (lit "key") (lit "a") (kv po_init)) with [(lit "key", lit "a")].
  (* the lines [b] and [c] *)
  change (lit "b") with (ch "b" :: []). change (lit "c") with (ch "c" :: []).
  rewrite po_body_continuation;
    [|discriminate|lia|lia|discriminate|discriminate|
      vm_compute; reflexivity|vm_compute; reflexivity].
  rewrite po_body_continuation;
    [|discriminate|lia|lia|discriminate|discriminate|
      vm_compute; reflexivity|vm_compute; reflexivity].
  cbn [bind flow_state kv]. do 2 f_equal.
Qed.

Lemma continuation_lines_join_witness :
  parse_options field_marker (key_block (lit ".. x::") 3 6 6) =
  Ok [(lit "key", a_b_c)].
Proof.
  apply (continuation_lines_join (lit ".. x::") 3 6 6).
  - vm_compute. intuition discriminate.
  - lia.
  - lia.
  - lia.
Defined.

(** A text whose line [:key: a] is not indented is not the block of a
    directive; on it the key line leaves the base indentation unset, the
    line [b] sets it and ends recovery, and the value of [key] is only the
    first text. *)
Lemma continuation_after_flush_key_line :
  parse_options field_marker key_block_flush = Ok [(lit "key", lit "a")]
  /\ parse_options field_marker key_block_flush <> Ok [(lit "key", a_b_c)].
Proof.
  split.
  - vm_compute. reflexivity.
  - vm_compute. discriminate.
Qed.

(** ** The explicit title of a role *)

Lemma run_seq a b s : run (Seq a b) s = flat_map (run b) (run a s).
Proof. reflexivity. Qed.

Lemma run_named name a s : run (Named name a) s = map (close_group name s) (run a s).
Proof. reflexivity. Qed.

Lemma in_run_seq a b s s' :
  In s' (run (Seq a b) s) <-> exists x, In x (run a s) /\ In s' (run b x).
Proof. rewrite run_seq. apply in_flat_map. Qed.

Lemma in_run_cls p s s' :
  In s' (run (Cls p) s) <->
  exists c cs, rest s = c :: cs /\ p c = true /\ s' = MState (c :: seen s) cs (caps s).
Proof.
  cbn [run]. destruct (rest s) as [|c cs].
  - split; [intros []|intros (c & cs & E & _); discriminate E].
  - destruct (p c) eqn:P.
    + split.
      * intros [<-|[]]. now exists c, cs.
      * intros (c' & cs' & [= <- <-] & _ & ->). now left.
    + split; [intros []|]. intros (c' & cs' & [= <- <-] & P' & _). congruence.
Qed.

Lemma in_star_cls_sound greedy p r : forall sn cp s',
  In s' (run (Star greedy (Cls p)) (MState sn r cp)) ->
  exists k, (k <= length r)%nat /\ forallb p (firstn k r) = true
            /\ s' = MState (rev (firstn k r) ++ sn) (skipn k r) cp.
Proof.
  induction r as [|c cs IH]; intros sn cp s' H; rewrite run_star_cls in H.
  - destruct H as [<-|[]]. exists 0%nat. now repeat split.
  - assert (Hzero : s' = MState sn (c :: cs) cp ->
                    exists k, (k <= length (c :: cs))%nat
                              /\ forallb p (firstn k (c :: cs)) = true
                              /\ s' = MState (rev (firstn k (c :: cs)) ++ sn)
                                             (skipn k (c :: cs)) cp).
    { intros ->. exists 0%nat. repeat split. cbn. lia. }
    assert (Hsucc : In s' (run (Star greedy (Cls p)) (MState (c :: sn) cs cp)) ->
                    p c = true ->
                    exists k, (k <= length (c :: cs))%nat
                              /\ forallb p (firstn k (c :: cs)) = true
                              /\ s' = MState (rev (firstn k (c :: cs)) ++ sn)
                                             (skipn k (c :: cs)) cp).
    { intros Hin Pc. destruct (IH _ _ _ Hin) as (k & Hk & Hall & ->).
      exists (S k). cbn [length firstn forallb skipn rev]. rewrite Pc, Hall.
      repeat split; [lia|]. now rewrite <- app_assoc. }
    destruct (p c) eqn:Pc.
    + destruct greedy.
      * apply in_app_or in H. destruct H as [H|[<-|[]]]; auto.
      * destruct H as [<-|H]; auto.
    + destruct H as [<-|[]]. auto.
Qed.

Lemma in_star_cls_complete greedy p r : forall sn cp k,
  (k <= length r)%nat -> forallb p (firstn k r) = true ->
  In (MState (rev (firstn k r) ++ sn) (skipn k r) cp)
     (run (Star greedy (Cls p)) (MState sn r cp)).
Proof.
  induction r as [|c cs IH]; intros sn cp k Hk Hall; rewrite run_star_cls.
  - destruct k; [|cbn in Hk; lia]. now left.
  - destruct k as [|k].
    + cbn [firstn rev app skipn].
      destruct (p c); [destruct greedy|]; try (now left).
      apply in_or_app. right. now left.
    + cbn [firstn forallb] in Hall. apply andb_prop in Hall as [Pc Hall].
      rewrite Pc. cbn [firstn rev skipn]. rewrite <- app_assoc. cbn [app].
      cbn [length] in Hk.
      specialize (IH (c :: sn) cp k ltac:(lia) Hall).
      destruct greedy; [apply in_or_app|]; auto. now right.
Qed.

Lemma hd_rev_last (l : str) (d : char) : hd d (rev l) = last l d.
Proof.
  induction l as [|c l IH]; auto.
  cbn [rev]. destruct l as [|c' l]; auto.
  cbn [last] in *. rewrite <- IH.
  cbn [rev]. now destruct (rev l).
Qed.

Lemma in_run_behind sn r cp s' :
  In s' (run (Behind false (N.eqb NUL)) (MState sn r cp)) <->
  unescaped sn /\ s' = MState sn r cp.
Proof.
  cbn [run seen]. destruct sn as [|c sn]; cbn [unescaped Bool.eqb].
  - split; [intros [<-|[]]; auto|intros [_ ->]; now left].
  - destruct (NUL =? c)%N; cbn [Bool.eqb].
    + split; [intros []|intros [H _]; discriminate H].
    + split; [intros [<-|[]]; auto|intros [_ ->]; now left].
Qed.

Lemma in_run_eol s s' :
  In s' (run Eol s) <-> (rest s = [] \/ rest s = [LF]) /\ s' = s.
Proof.
  cbn [run]. destruct (rest s) as [|c [|c' cs]].
  - split; [intros [<-|[]]; auto|intros [_ ->]; now left].
  - destruct (c =? LF)%N eqn:E.
    + apply N.eqb_eq in E. subst c.
      split; [intros [<-|[]]; auto|intros [_ ->]; now left].
    + apply N.eqb_neq in E.
      split; [intros []|intros [[H|[= H]] _]; [discriminate H|congruence]].
  - split; [intros []|intros [[H|H] _]; discriminate H].
Qed.

Lemma firstn_length_app {A} (a b : list A) : firstn (length a) (a ++ b) = a.
Proof. induction a; cbn; congruence. Qed.

Lemma skipn_length_app {A} (a b : list A) : skipn (length a) (a ++ b) = b.
Proof. induction a; cbn; congruence. Qed.

(** What a match of the tail of the pattern says about the text ahead. *)
Lemma title_tail_sound sn r cp s' :
  In s' (run title_tail (MState sn r cp)) ->
  exists ws target tail,
    r = ws ++ [ch "<"] ++ target ++ [ch ">"] ++ tail
    /\ forallb isspace ws = true
    /\ (tail = [] \/ tail = [LF])
    /\ unescaped (rev ws ++ sn)
    /\ caps s' = ("target"%string, target) :: cp.
Proof.
  unfold title_tail, whitespace, any_char, Chr. intros H.
  apply in_run_seq in H as (s1 & H1 & H).
  apply in_star_cls_sound in H1 as (k & Hk & Hws & ->).
  apply in_run_seq in H as (s2 & H2 & H).
  apply in_run_behind in H2 as (Hesc & ->).
  apply in_run_seq in H as (s3 & H3 & H).
  apply in_run_cls in H3 as (c & cs & Hr & Hc & ->). cbn [rest seen caps] in *.
  apply in_run_seq in H as (s4 & H4 & H).
  rewrite run_named in H4. apply in_map_iff in H4 as (s4' & <- & H4).
  apply in_star_cls_sound in H4 as (j & Hj & _ & ->).
  apply in_run_seq in H as (s5 & H5 & H).
  apply in_run_cls in H5 as (c' & tail & Hr' & Hc' & ->).
  apply in_run_eol in H as (Htail & ->).
  cbn [close_group rest seen caps] in *.
  apply N.eqb_eq in Hc, Hc'. subst c c'.
  exists (firstn k r), (firstn j cs), tail. repeat split; auto.
  - rewrite <- (firstn_skipn k r) at 1. rewrite Hr.
    rewrite <- (firstn_skipn j cs) at 1. now rewrite Hr'.
  - rewrite length_skipn.
    now replace (length cs - (length cs - j))%nat with j by lia.
Qed.

(** A text ahead of that form is matched by the tail of the pattern. *)
Lemma title_tail_complete sn ws target tail cp :
  forallb isspace ws = true -> (tail = [] \/ tail = [LF]) ->
  unescaped (rev ws ++ sn) ->
  exists s',
    In s' (run title_tail
               (MState sn (ws ++ [ch "<"] ++ target ++ [ch ">"] ++ tail) cp)).
Proof.
  intros Hws Htail Hesc. unfold title_tail, whitespace, any_char, Chr.
  pose proof (in_star_cls_complete true isspace
                (ws ++ [ch "<"] ++ target ++ [ch ">"] ++ tail)
                sn cp (length ws)) as H1.
  rewrite firstn_length_app, skipn_length_app, length_app in H1.
  specialize (H1 ltac:(lia) Hws).
  pose proof (in_star_cls_complete false (fun _ => true)
                (target ++ [ch ">"] ++ tail)
                (ch "<" :: rev ws ++ sn) cp (length target)) as H4.
  rewrite firstn_length_app, skipn_length_app, length_app in H4.
  specialize (H4 ltac:(lia)).
  rewrite forallb_forall in H4. specialize (H4 ltac:(auto)).
  eexists. apply in_run_seq. eexists. split; [exact H1|].
  apply in_run_seq. eexists. split; [apply in_run_behind; split; [exact Hesc|reflexivity]|].
  apply in_run_seq. eexists. split.
  { apply in_run_cls. cbn [rest app]. do 2 eexists.
    split; [reflexivity|]. split; [apply N.eqb_refl|reflexivity]. }
  cbn [seen caps]. apply in_run_seq. eexists. split.
  { rewrite run_named. apply in_map. exact H4. }
  apply in_run_seq. eexists. split.
  { apply in_run_cls. cbn [close_group rest app]. do 2 eexists.
    split; [reflexivity|]. split; [apply N.eqb_refl|reflexivity]. }
  apply in_run_eol. cbn [rest]. split; [exact Htail|reflexivity].
Qed.

(** A lazy star over [.] lists the states after 0, 1, 2, ... characters. *)
Lemma lazy_any_states r : forall sn cp,
  run (Star false (Cls (fun _ => true))) (MState sn r cp) =
  map (fun k => MState (rev (firstn k r) ++ sn) (skipn k r) cp)
      (seq 0 (S (length r))).
Proof.
  induction r as [|c cs IH]; intros sn cp; rewrite run_star_cls; auto.
  rewrite IH. cbn [length].
  change (seq 0 (S (S (length cs)))) with (0%nat :: seq 1 (S (length cs))).
  rewrite <- (seq_shift (S (length cs)) 0). cbn [map]. rewrite map_map. f_equal.
  apply map_ext. intros k. cbn [firstn rev skipn]. now rewrite <- app_assoc.
Qed.

Lemma flat_map_of_map {A B C} (f : B -> list C) (g : A -> B) (l : list A) :
  flat_map f (map g l) = flat_map (fun x => f (g x)) l.
Proof. induction l; cbn; congruence. Qed.

(** The labels [.+?] tries: the prefixes of 1, 2, ... characters. *)
Lemma label_states (text : str) :
  run (Named "label" (Plus false any_char)) (start text) =
  map (after_label text) (seq 1 (length text)).
Proof.
  rewrite run_named. unfold Plus, any_char. rewrite run_seq.
  destruct text as [|c cs]; auto.
  change (run (Cls (fun _ => true)) (start (c :: cs))) with [MState [c] cs []].
  cbn [flat_map]. rewrite app_nil_r, lazy_any_states, map_map.
  cbn [length]. rewrite <- (seq_shift (S (length cs)) 0), map_map.
  apply map_ext_in. intros k Hk. apply in_seq in Hk.
  unfold close_group, after_label, start. cbn [seen rest caps firstn skipn rev length].
  rewrite length_skipn.
  now replace (S (length cs) - (length cs - k))%nat with (S k) by lia.
Qed.

Lemma explicit_title_run (text : str) :
  run PAT_EXPLICIT_TILE (start text) =
  flat_map (fun k => run title_tail (after_label text k)) (seq 1 (length text)).
Proof.
  change PAT_EXPLICIT_TILE
    with (Bol >> Named "label" (Plus false any_char) >> title_tail)%re.
  rewrite run_seq. change (run Bol (start text)) with [start text].
  cbn [flat_map]. now rewrite app_nil_r, run_seq, label_states, flat_map_of_map.
Qed.

(** The first success of a backtracking search over [a], [a + 1], ... *)
Lemma first_success_seq {B} (f : nat -> list B) (n : nat) : forall a,
  ((forall k, (a <= k < a + n)%nat -> f k = []) /\ flat_map f (seq a n) = [])
  \/ (exists k x xs,
        (a <= k < a + n)%nat /\ (forall j, (a <= j < k)%nat -> f j = [])
        /\ f k = x :: xs
        /\ exists others, flat_map f (seq a n) = x :: others).
Proof.
  induction n as [|n IH]; intros a; cbn [seq flat_map].
  - left. split; auto. intros k Hk. lia.
  - destruct (f a) as [|x xs] eqn:E.
    + destruct (IH (S a)) as [[Hnone Hflat]|(k & x & xs & Hk & Hbefore & Hk' & others & Hflat)].
      * left. split; auto. intros k Hk.
        destruct (Nat.eq_dec k a) as [->|]; auto. apply Hnone. lia.
      * right. exists k, x, xs. split; [lia|]. split; [|split; [exact Hk'|]].
        -- intros j Hj. destruct (Nat.eq_dec j a) as [->|]; auto. apply Hbefore. lia.
        -- exists others. now cbn [app].
    + right. exists a, x, xs. split; [lia|]. split; [|split; [exact E|]].
      * intros j Hj. lia.
      * now exists (xs ++ flat_map f (seq (S a) n)).
Qed.

Lemma unescaped_rev (l : str) :
  l <> [] -> (unescaped (rev l) <-> last l SP <> NUL).
Proof.
  intros Hl. rewrite <- (hd_rev_last l SP).
  destruct (rev l) as [|c t] eqn:E.
  - apply (f_equal (@rev char)) in E. rewrite rev_involutive in E. now subst l.
  - cbn [unescaped hd]. rewrite N.eqb_neq. split; congruence.
Qed.

(** A text of the explicit form, seen from the state after its label. *)
Lemma explicit_form_after_label (text label ws target tail : str) :
  explicit_form text label ws target tail ->
  (1 <= length label < 1 + length text)%nat
  /\ exists s', In s' (run title_tail (after_label text (length label))).
Proof.
  intros (Htext & Hlabel & Hws & Htail & Hesc). split.
  - rewrite Htext, length_app. destruct label; [congruence|cbn [length]; lia].
  - unfold after_label. rewrite Htext, firstn_length_app, skipn_length_app.
    apply title_tail_complete; auto.
    rewrite <- rev_app_distr. apply unescaped_rev; auto.
    destruct label; [congruence|discriminate].
Qed.

Lemma after_label_explicit_form (text : str) (k : nat) (s' : mstate) :
  (1 <= k < 1 + length text)%nat ->
  In s' (run title_tail (after_label text k)) ->
  exists ws target tail,
    explicit_form text (firstn k text) ws target tail
    /\ caps s' = [("target"%string, target); ("label"%string, firstn k text)].
Proof.
  intros Hk H. apply title_tail_sound in H
    as (ws & target & tail & Hr & Hws & Htail & Hesc & Hcaps).
  assert (Hlabel : firstn k text <> []).
  { destruct text; [cbn in Hk; lia|]. destruct k; [lia|discriminate]. }
  exists ws, target, tail. split; auto.
  repeat split; auto.
  - rewrite <- Hr. symmetry. apply firstn_skipn.
  - rewrite <- rev_app_distr in Hesc. apply unescaped_rev in Hesc; auto.
    destruct (firstn k text); [congruence|discriminate].
Qed.

(** The label of the leftmost split ends with whitespace only when it is
    one whitespace character: a longer one would give a shorter label. *)
Lemma shortest_label_is_stripped (text label ws target tail : str) :
  explicit_form text label ws target tail ->
  (forall label' ws' target' tail',
     explicit_form text label' ws' target' tail' ->
     (length label <= length label')%nat) ->
  forall before c, label = before ++ [c] -> isspace c = true -> before = [].
Proof.
  intros (Htext & Hlabel & Hws & Htail & Hesc) Hmin before c -> Hc.
  destruct before as [|b before]; auto. exfalso.
  assert (Hform : explicit_form text (b :: before) (c :: ws) target tail).
  { repeat split; auto.
    - rewrite Htext, <- !app_assoc. reflexivity.
    - discriminate.
    - cbn [forallb]. now rewrite Hc, Hws.
    - rewrite <- app_assoc in Hesc. exact Hesc. }
  specialize (Hmin _ _ _ _ Hform). rewrite length_app in Hmin. cbn in Hmin. lia.
Qed.

(** C2: the role builder splits at the first [<], not the last, that comes
    after a label of at least one character and a run of whitespace, is not
    right after the escape marker [\x00], and whose remainder ends in [>]
    (or in [>] and a final line feed).  The label is the shortest such
    prefix, so the whitespace before [<] is dropped from it; the target is
    the text between that [<] and the final [>].  A text with no such form
    has itself as label and as target.  For [A<B<C>] the label is [A] and
    the target is [B<C]. *)
Theorem role_splits_at_first_unescaped_angle (name rawtext text : str) (lineno : Z) :
  ((exists label ws target tail,
      explicit_form text label ws target tail
      /\ (forall label' ws' target' tail',
            explicit_form text label' ws' target' tail' ->
            (length label <= length label')%nat)
      /\ (forall before c,
            label = before ++ [c] -> isspace c = true -> before = [])
      /\ role_init name rawtext text lineno =
         role name text (LabelText (Some label) lineno) (Some target))
   \/ ((forall label ws target tail, ~ explicit_form text label ws target tail)
       /\ role_init name rawtext text lineno =
          role name text (LabelRaw text) (Some text)))
  /\ role_init name rawtext (lit "A<B<C>") lineno =
     role name (lit "A<B<C>") (LabelText (Some (lit "A")) lineno) (Some (lit "B<C")).
Proof.
  split; [|vm_compute; reflexivity].
  unfold role_init, re_match. rewrite explicit_title_run.
  destruct (first_success_seq (fun k => run title_tail (after_label text k))
                              (length text) 1)
    as [[Hnone Hflat]|(k & x & xs & Hk & Hbefore & Hkx & others & Hflat)];
    rewrite Hflat.
  - right. split; auto.
    intros label ws target tail Hform.
    destruct (explicit_form_after_label _ _ _ _ _ Hform) as [Hrange [s' Hin]].
    rewrite Hnone in Hin by lia. destruct Hin.
  - left.
    assert (Hin : In x (run title_tail (after_label text k)))
      by (rewrite Hkx; now left).
    destruct (after_label_explicit_form text k x Hk Hin)
      as (ws & target & tail & Hform & Hcaps).
    assert (Hmin : forall label' ws' target' tail',
               explicit_form text label' ws' target' tail' ->
               (length (firstn k text) <= length label')%nat).
    { intros label' ws' target' tail' Hform'.
      destruct (explicit_form_after_label _ _ _ _ _ Hform') as [Hrange [s' Hin']].
      rewrite length_firstn.
      destruct (Nat.lt_ge_cases (length label') k) as [Hlt|Hge]; [|lia].
      rewrite Hbefore in Hin' by lia. destruct Hin'. }
    exists (firstn k text), ws, target, tail.
    split; [exact Hform|]. split; [exact Hmin|]. split.
    + exact (shortest_label_is_stripped _ _ _ _ _ Hform Hmin).
    + unfold named. cbn [m_groups]. rewrite Hcaps. reflexivity.
Qed.

(** The text [A<B<C>] is not split at its last [<], and the text [A<>] is
    split although its target is empty. *)
Lemma role_does_not_split_at_last_angle :
  role_init (lit "ref") (lit ":ref:`A<B<C>`") (lit "A<B<C>") 1 <>
    role (lit "ref") (lit "A<B<C>") (LabelText (Some (lit "A<B")) 1) (Some (lit "C"))
  /\ role_init (lit "ref") (lit ":ref:`A<>`") (lit "A<>") 1 <>
     role (lit "ref") (lit "A<>") (LabelRaw (lit "A<>")) (Some (lit "A<>")).
Proof. split; vm_compute; discriminate. Qed.

(** ** Re-basing the content of a legacy tab *)

Lemma takewhile_dropwhile_length p (s : str) :
  (length (takewhile p s) + length (dropwhile p s))%nat = length s.
Proof.
  induction s as [|c s IH]; cbn [takewhile dropwhile]; auto.
  destruct (p c); cbn [length]; lia.
Qed.

Lemma takewhile_forallb p (s : str) : forallb p (takewhile p s) = true.
Proof.
  induction s as [|c s IH]; cbn [takewhile]; auto.
  destruct (p c) eqn:E; cbn [forallb]; auto. now rewrite E.
Qed.

Lemma takewhile_dropwhile p (s : str) : takewhile p s ++ dropwhile p s = s.
Proof.
  induction s as [|c s IH]; cbn [takewhile dropwhile]; auto.
  destruct (p c); cbn [app]; congruence.
Qed.

Lemma forallb_firstn {A} (p : A -> bool) (n : nat) (l : list A) :
  forallb p l = true -> forallb p (firstn n l) = true.
Proof.
  revert n. induction l as [|x l IH]; intros [|n] H; cbn in *; auto.
  apply andb_prop in H as [-> H]. cbn. auto.
Qed.

(** The first [indent] characters of a line are whitespace, and all of a
    blank line is. *)
Lemma margin_is_whitespace (m : nat) (l : str) :
  (nonblank l = true -> (m <= indent l)%nat) ->
  forallb isspace (firstn m l) = true.
Proof.
  intros H. unfold nonblank, lstrip, indent in H.
  rewrite <- (takewhile_dropwhile isspace l).
  destruct (dropwhile isspace l) as [|c s].
  - rewrite app_nil_r. apply forallb_firstn, takewhile_forallb.
  - rewrite firstn_app.
    replace (m - length (takewhile isspace l))%nat with 0%nat by (specialize (H eq_refl); lia).
    cbn [firstn]. rewrite app_nil_r. apply forallb_firstn, takewhile_forallb.
Qed.

Lemma margin_step_eq (margin : Z) (line : str) :
  margin_step margin line =
  if nonblank line then Z.min margin (Z.of_nat (indent line)) else margin.
Proof.
  unfold margin_step, nonblank, indent, len, lstrip.
  pose proof (takewhile_dropwhile_length isspace line) as L.
  destruct (dropwhile isspace line) as [|c s]; cbn [length] in *; auto.
  replace (Z.of_nat (S (length s)) =? 0)%Z with false by (symmetry; apply Z.eqb_neq; lia).
  f_equal. lia.
Qed.

Lemma find_margin_from (lines : list str) : forall acc,
  fold_left margin_step lines acc =
  match common_margin lines with
  | Some m => Z.min acc (Z.of_nat m)
  | None => acc
  end.
Proof.
  induction lines as [|l ls IH]; intros acc; cbn [fold_left common_margin]; auto.
  rewrite IH, margin_step_eq.
  destruct (nonblank l); auto.
  destruct (common_margin ls); auto. lia.
Qed.

Lemma common_margin_le (lines : list str) (m : nat) :
  common_margin lines = Some m ->
  forall l, In l lines -> nonblank l = true -> (m <= indent l)%nat.
Proof.
  revert m. induction lines as [|x ls IH]; intros m; cbn [common_margin]; [discriminate|].
  intros H l [->|Hin] Hl.
  - rewrite Hl in H. destruct (common_margin ls); injection H as <-; lia.
  - destruct (nonblank x).
    + destruct (common_margin ls) as [m'|] eqn:E.
      * injection H as <-. specialize (IH m' eq_refl l Hin Hl). lia.
      * clear IH H. exfalso. induction ls as [|y ls IH]; [destruct Hin|].
        cbn [common_margin] in E. destruct Hin as [->|Hin].
        -- rewrite Hl in E. destruct (common_margin ls); discriminate.
        -- destruct (nonblank y); [destruct (common_margin ls); discriminate|auto].
    + eauto.
Qed.

Lemma common_margin_attained (lines : list str) (m : nat) :
  common_margin lines = Some m ->
  exists l, In l lines /\ nonblank l = true /\ indent l = m.
Proof.
  revert m. induction lines as [|x ls IH]; intros m; cbn [common_margin]; [discriminate|].
  destruct (nonblank x) eqn:Hx.
  - destruct (common_margin ls) as [m'|].
    + intros [= <-]. destruct (IH m' eq_refl) as (l & Hin & Hl & Hm).
      destruct (Nat.le_gt_cases (indent x) m').
      * exists x. repeat split; auto; [now left|lia].
      * exists l. repeat split; auto; [now right|lia].
    + intros [= <-]. exists x. repeat split; auto. now left.
  - intros H. destruct (IH m H) as (l & Hin & Hl & Hm).
    exists l. repeat split; auto. now right.
Qed.

Lemma nonblank_indent_lt (l : str) : nonblank l = true -> (indent l < length l)%nat.
Proof.
  unfold nonblank, lstrip, indent. intros H.
  pose proof (takewhile_dropwhile_length isspace l).
  destruct (dropwhile isspace l); [discriminate|cbn [length] in *; lia].
Qed.

Lemma list_set_middle {A} (pre : list A) (x y : A) (post : list A) :
  list_set (length pre) y (pre ++ x :: post) = pre ++ y :: post.
Proof. induction pre; cbn; congruence. Qed.

(** The loop [for i in range(ignore, len(lines))] maps over the later lines. *)
Lemma slice_loop (f : str -> str) (later : list str) : forall pre,
  fold_left (fun lines i => list_set i (f (nth i lines [])) lines)
            (seq (length pre) (length later)) (pre ++ later) =
  pre ++ map f later.
Proof.
  induction later as [|l later IH]; intros pre; cbn [length seq fold_left map]; auto.
  rewrite nth_middle, list_set_middle.
  change (pre ++ f l :: later) with (pre ++ [f l] ++ later).
  rewrite app_assoc.
  replace (S (length pre)) with (length (pre ++ [f l]))
    by (rewrite length_app; cbn; lia).
  rewrite IH, <- app_assoc. reflexivity.
Qed.

Lemma prepare_viewlist_rebased (text : str) :
  Forall (fun l => (len l <= sys_maxsize)%Z) (splitlines (expandtabs text)) ->
  prepare_viewlist text 1 =
  append_separator (pop_leading_empty (rebased (splitlines (expandtabs text)))).
Proof.
  intros Hlen. unfold prepare_viewlist.
  destruct (splitlines (expandtabs text)) as [|first later]; [reflexivity|].
  cbn [skipn seq fold_left length Nat.ltb Nat.leb nth list_set rebased].
  unfold find_margin. rewrite find_margin_from.
  destruct (common_margin later) as [m|] eqn:Hm.
  - destruct (common_margin_attained later m Hm) as (l & Hin & Hl & Hml).
    apply nonblank_indent_lt in Hl.
    apply Forall_inv_tail in Hlen. rewrite Forall_forall in Hlen.
    specialize (Hlen l Hin). unfold len in Hlen.
    replace (Z.min sys_maxsize (Z.of_nat m)) with (Z.of_nat m) by lia.
    replace (Z.of_nat m <? sys_maxsize)%Z with true by (symmetry; apply Z.ltb_lt; lia).
    rewrite Nat2Z.id. cbn [Nat.sub]. try rewrite Nat.sub_0_r.
    do 2 f_equal. exact (slice_loop (skipn m) later [lstrip first]).
  - now rewrite Z.ltb_irrefl.
Qed.

Lemma pop_leading_empty_head (lines : list str) (first : str) (more : list str) :
  pop_leading_empty lines = first :: more -> first <> [].
Proof.
  induction lines as [|l ls IH]; cbn [pop_leading_empty]; [discriminate|].
  destruct l; auto. intros [= <- _]. discriminate.
Qed.

Lemma last_default {A} (l : list A) (d d' : A) : l <> [] -> last l d = last l d'.
Proof.
  induction l as [|x l IH]; [congruence|]. intros _.
  destruct l as [|y l]; auto. cbn [last] in *. apply IH. discriminate.
Qed.

Lemma append_separator_last (lines : list str) :
  lines <> [] -> last (append_separator lines) [SP] = [].
Proof.
  destruct lines as [|l ls]; [congruence|]. intros _. cbn [append_separator].
  destruct (last (l :: ls) []) as [|c s] eqn:E.
  - rewrite (last_default (l :: ls) [SP] []); [exact E|discriminate].
  - apply last_last.
Qed.

(** The lines [pop_leading_empty] drops are empty lines at the start, and
    it drops all of them. *)
Lemma pop_leading_empty_spec (lines : list str) :
  exists k,
    lines = repeat [] k ++ pop_leading_empty lines
    /\ forall first more, pop_leading_empty lines = first :: more -> first <> [].
Proof.
  induction lines as [|l ls IH].
  - exists 0%nat. split; [reflexivity|discriminate].
  - destruct l as [|c l].
    + destruct IH as (k & E & H). exists (S k). cbn [pop_leading_empty repeat app].
      split; [now f_equal|exact H].
    + exists 0%nat. cbn [pop_leading_empty repeat app].
      split; [reflexivity|]. intros first more [= <- _]. discriminate.
Qed.

(** C7: the re-basing left-strips the first line and removes from every
    later line the common margin of the non-blank later lines (whitespace
    only, and nothing when all later lines are blank).  The lines re-based
    so are some empty lines followed by the lines kept, which do not start
    with an empty line: all the leading empty lines are dropped and no other
    line is.  When a line is kept the result ends with an empty line, one
    being appended only when the last line kept is not empty: empty lines
    already at the end stay, and a text whose lines are all dropped gives no
    line at all. *)
Theorem rebasing_of_tab_content (text : str) :
  Forall (fun l => (len l <= sys_maxsize)%Z) (splitlines (expandtabs text)) ->
  (forall first later m l,
      splitlines (expandtabs text) = first :: later ->
      common_margin later = Some m -> In l later ->
      forallb isspace (firstn m l) = true
      /\ (nonblank l = true -> (m <= indent l)%nat))
  /\ (exists k kept,
        rebased (splitlines (expandtabs text)) = repeat [] k ++ kept
        /\ (forall first more, kept = first :: more -> first <> [])
        /\ (kept = [] -> prepare_viewlist text 1 = [])
        /\ (kept <> [] -> last kept [] = [] -> prepare_viewlist text 1 = kept)
        /\ (kept <> [] -> last kept [] <> [] ->
            prepare_viewlist text 1 = kept ++ [[]]))
  /\ (forall first more,
        prepare_viewlist text 1 = first :: more ->
        first <> [] /\ last (first :: more) [SP] = []).
Proof.
  intros Hlen. pose proof (prepare_viewlist_rebased text Hlen) as E.
  split; [|split].
  - intros first later m l _ Hm Hin.
    pose proof (common_margin_le later m Hm l Hin) as Hle.
    split; auto. now apply margin_is_whitespace.
  - destruct (pop_leading_empty_spec (rebased (splitlines (expandtabs text))))
      as (k & Hk & Hhead).
    exists k, (pop_leading_empty (rebased (splitlines (expandtabs text)))).
    split; [exact Hk|]. split; [exact Hhead|]. rewrite E.
    destruct (pop_leading_empty (rebased (splitlines (expandtabs text))))
      as [|x xs].
    + split; [reflexivity|]. split; intros H; exfalso; now apply H.
    + cbn [append_separator]. split; [discriminate|].
      unfold str in *. split; intros _ H; destruct (last (x :: xs) []); congruence.
  - intros first more Hres. rewrite E in Hres.
    destruct (pop_leading_empty (rebased (splitlines (expandtabs text))))
      as [|x xs] eqn:Hpop; [discriminate Hres|].
    split.
    + apply pop_leading_empty_head in Hpop.
      cbn [append_separator] in Hres.
      destruct (last (x :: xs) []); cbn [app] in Hres; congruence.
    + rewrite <- Hres. apply append_separator_last. discriminate.
Qed.

Lemma rebasing_of_tab_content_witness :
  exists k kept,
    rebased (splitlines (expandtabs indented_content)) = repeat [] k ++ kept
    /\ (forall first more, kept = first :: more -> first <> [])
    /\ (kept = [] -> prepare_viewlist indented_content 1 = [])
    /\ (kept <> [] -> last kept [] = [] -> prepare_viewlist indented_content 1 = kept)
    /\ (kept <> [] -> last kept [] <> [] ->
        prepare_viewlist indented_content 1 = kept ++ [[]]).
Proof.
  refine (proj1 (proj2 (rebasing_of_tab_content indented_content _))).
  apply Forall_forall. intros l Hin. vm_compute in Hin.
  repeat (destruct Hin as [<-|Hin]; [vm_compute; intros X; discriminate X|]).
  destruct Hin.
Defined.

(** The result can end with more than one empty line, and with no line. *)
Lemma not_exactly_one_trailing_blank :
  ~ ends_with_one_blank (prepare_viewlist content_with_blank_end 1)
  /\ ~ ends_with_one_blank (prepare_viewlist [] 1).
Proof.
  split; intros [body [E H]].
  - change (prepare_viewlist content_with_blank_end 1)
      with ([lit "a"; []] ++ [[]]) in E.
    apply app_inj_tail in E as [<- _]. now apply H.
  - change (prepare_viewlist [] 1) with (@nil str) in E.
    now apply app_cons_not_nil in E.
Qed.

(** ** The directive builders *)

Lemma parse_options_ok fm (block_text : str) :
  exists options, parse_options fm block_text = Ok options.
Proof.
  unfold parse_options.
  destruct (po_loop_ok fm (split LF block_text) 0 po_init po_init_key_present)
    as [f [E _]].
  rewrite E. cbn [bind]. now eexists.
Qed.

(** C1: the generic builder on the code block [.. code-block:: python]
    with the body [x = 1].  The directive node has the argument and then one
    raw-content holder, built without any text: it has no child and no raw
    source, only the source and the line of the directive, so the body is
    not in it. *)
Theorem special_body_is_not_held :
  Directive_run field_marker plain_source_and_line plain_inline_text
                plain_nested_parse code_block_self =
    Ok [directive (lit "code-block") []
          [directive_argument (lit "python") [Text (lit "python")] (lit "index.rst") 1;
           FixedTextElement [] [] (lit "index.rst") 1]
          (lit "index.rst") 1]
  /\ ~ holds_body_verbatim
        (Directive_run field_marker plain_source_and_line plain_inline_text
                       plain_nested_parse code_block_self)
        (join [LF] (content code_block_self)).
Proof.
  split; [vm_compute; reflexivity|].
  intros (nm & opts & kids & src & ln & raw & E & F & T).
  vm_compute in E. injection E as <- <- <- <- <-.
  vm_compute in F. injection F as <-.
  vm_compute in T. destruct T as [T|T]; discriminate T.
Qed.

(** ** The legacy tabs migration *)

Lemma has_tabs_line_iff (self : Self) :
  has_tabs_line self = true <-> In (lit "tabs:") (content self).
Proof.
  unfold has_tabs_line. rewrite existsb_exists. split.
  - intros (l & Hin & E). apply str_eqb_eq in E. now subst l.
  - intros Hin. exists (lit "tabs:"). split; [exact Hin|apply str_eqb_refl].
Qed.

(** C4: when the legacy content does not check against
    [LegacyTabsDefinition], the tabs builder returns normally, so the parse
    of the document goes on, with exactly one node: an error message of
    level 3 that holds the text of the error, at the line of the directive
    plus the line offset of the offending data (0 when it tracks none) plus
    1.  No directive node, so no [tabs] or [tab] node, is in the result. *)
Theorem legacy_tabs_error_is_one_node
        fm get_source_and_line inline_text nested_parse
        (yaml : Type) (load_yaml : str -> result (list yaml))
        (check_type : yaml -> LoadError + LegacyTabsDefinition)
        (self : Self) (parsed : yaml) (more : list yaml) (err : LoadError) :
  In (lit "tabs:") (content self) ->
  load_yaml (join [LF] (content self)) = Ok (parsed :: more) ->
  check_type parsed = inl err ->
  exists error_node,
    TabsDirective_run fm get_source_and_line inline_text nested_parse
                      yaml load_yaml check_type self = Ok [error_node]
    /\ error_node =
         system_message 3 (lit "ERROR") [paragraph [] [Text (err_str err)]]
           (lineno self
            + match bad_data_line err with Some offset => offset | None => 0 end
            + 1)
    /\ (forall offset, bad_data_line err = Some offset ->
          error_node = reporter_error (err_str err) (lineno self + offset + 1))
    /\ directive_names error_node = [].
Proof.
  intros Htabs Hload Hcheck. apply has_tabs_line_iff in Htabs.
  unfold TabsDirective_run, migrate_legacy_tabs.
  rewrite Htabs, Hload. cbn [bind]. rewrite Hcheck.
  eexists. split; [reflexivity|]. split; [reflexivity|]. split; [|reflexivity].
  intros offset ->. reflexivity.
Qed.

Lemma legacy_tabs_error_is_one_node_witness :
  exists error_node,
    TabsDirective_run field_marker plain_source_and_line plain_inline_text
                      plain_nested_parse unit (fun _ => Ok [tt])
                      (fun _ => inl bad_tab) legacy_tabs_self = Ok [error_node]
    /\ error_node =
         system_message 3 (lit "ERROR") [paragraph [] [Text (lit "bad type")]] 14
    /\ (forall offset, Some 3%Z = Some offset ->
          error_node = reporter_error (lit "bad type") (10 + offset + 1))
    /\ directive_names error_node = [].
Proof.
  apply (legacy_tabs_error_is_one_node
           field_marker plain_source_and_line plain_inline_text
           plain_nested_parse unit (fun _ => Ok [tt]) (fun _ => inl bad_tab)
           legacy_tabs_self tt [] bad_tab).
  - vm_compute. auto.
  - reflexivity.
  - reflexivity.
Defined.

(** C5: a directive invoked as [tabs-platforms] whose content has the line
    [tabs:], with the legacy hidden flag true and two items of ids [x] and
    [y], gives exactly one directive node named [tabs]; its options are
    [hidden: True] then [tabset: platforms]; its children are the tab node
    of [x] then the tab node of [y], and a tab node is a directive named
    [tab] with no option whose first child is the argument made of its
    id. *)
Theorem tabs_platforms_migration
        fm get_source_and_line inline_text nested_parse
        (yaml : Type) (load_yaml : str -> result (list yaml))
        (check_type : yaml -> LoadError + LegacyTabsDefinition)
        (self : Self) (parsed : yaml) (more : list yaml)
        (loaded : LegacyTabsDefinition) (tab_x tab_y : LegacyTabDefinition)
        (x y : str) :
  name self = lit "tabs-platforms" ->
  In (lit "tabs:") (content self) ->
  load_yaml (join [LF] (content self)) = Ok (parsed :: more) ->
  check_type parsed = inr loaded ->
  hidden loaded = Some true ->
  tabs loaded = [tab_x; tab_y] -> id tab_x = x -> id tab_y = y ->
  exists source line node_x node_y,
    get_source_and_line (lineno self) = (source, line)
    /\ TabsDirective_run fm get_source_and_line inline_text nested_parse
                         yaml load_yaml check_type self =
       Ok [directive (lit "tabs")
             [(lit "hidden", OBool true); (lit "tabset", OStr (lit "platforms"))]
             [node_x; node_y] source line]
    /\ (exists textnodes parsed_content,
          node_x = directive (lit "tab") []
                     (directive_argument x textnodes source (lineno self + tab_line tab_x)
                      :: parsed_content)
                     source (lineno self + tab_line tab_x))
    /\ (exists textnodes parsed_content,
          node_y = directive (lit "tab") []
                     (directive_argument y textnodes source (lineno self + tab_line tab_y)
                      :: parsed_content)
                     source (lineno self + tab_line tab_y)).
Proof.
  intros Hname Htabs Hload Hcheck Hhidden Hitems Hx Hy.
  apply has_tabs_line_iff in Htabs.
  unfold TabsDirective_run, migrate_legacy_tabs.
  rewrite Htabs, Hload. cbn [bind]. rewrite Hcheck, Hname, Hhidden, Hitems.
  destruct (get_source_and_line (lineno self)) as [source line].
  exists source, line,
    (make_tab_node inline_text nested_parse self source tab_x),
    (make_tab_node inline_text nested_parse self source tab_y).
  split; [reflexivity|]. split; [reflexivity|].
  unfold make_tab_node. rewrite Hx, Hy. split.
  - destruct (inline_text x (lineno self + tab_line tab_x)%Z) as [textnodes messages].
    now do 2 eexists.
  - destruct (inline_text y (lineno self + tab_line tab_y)%Z) as [textnodes messages].
    now do 2 eexists.
Qed.

Lemma tabs_platforms_migration_witness :
  exists source line node_x node_y,
    plain_source_and_line (lineno legacy_tabs_self) = (source, line)
    /\ TabsDirective_run field_marker plain_source_and_line plain_inline_text
                         plain_nested_parse unit (fun _ => Ok [tt])
                         (fun _ => inr two_tabs) legacy_tabs_self =
       Ok [directive (lit "tabs")
             [(lit "hidden", OBool true); (lit "tabset", OStr (lit "platforms"))]
             [node_x; node_y] source line]
    /\ (exists textnodes parsed_content,
          node_x = directive (lit "tab") []
                     (directive_argument (lit "x") textnodes source
                                         (lineno legacy_tabs_self + 2)
                      :: parsed_content)
                     source (lineno legacy_tabs_self + 2))
    /\ (exists textnodes parsed_content,
          node_y = directive (lit "tab") []
                     (directive_argument (lit "y") textnodes source
                                         (lineno legacy_tabs_self + 5)
                      :: parsed_content)
                     source (lineno legacy_tabs_self + 5)).
Proof.
  apply (tabs_platforms_migration
           field_marker plain_source_and_line plain_inline_text
           plain_nested_parse unit (fun _ => Ok [tt]) (fun _ => inr two_tabs)
           legacy_tabs_self tt [] two_tabs
           (MkLegacyTab 2 (lit "x") None (lit "X"))
           (MkLegacyTab 5 (lit "y") None (lit "Y")) (lit "x") (lit "y"));
    try reflexivity.
  vm_compute. auto.
Defined.

(** ** Name resolution *)

Lemma startswith_prefix (s prefix : str) :
  startswith s prefix = true <-> exists rest, s = prefix ++ rest.
Proof.
  revert s. induction prefix as [|p prefix IH]; intros s.
  - split; [intros _; now exists s|intros _; now destruct s].
  - destruct s as [|c s]; cbn [startswith].
    + split; [discriminate|]. intros [rest E]. discriminate E.
    + rewrite andb_true_iff, N.eqb_eq, IH. split.
      * intros [-> [rest ->]]. now exists rest.
      * intros [rest E]. cbn [app] in E. injection E as -> ->. split; auto. now exists rest.
Qed.

(** C6: no name is rejected: every directive name resolves to a class and
    every role name to the role handler, each time with no message.  The
    names that resolve to the tabs builder are exactly those that begin with
    the four characters [tabs]: the tab-set family, [tabs] and
    [tabs-<suffix>], and also any other name with that beginning.  The names
    that resolve to the generic builder are exactly those that do not begin
    so.  The role handler gives one role node under the name and with the
    text it was called with.  The tabs builder migrates the legacy syntax
    when a line of the content is exactly [tabs:], and does what the generic
    builder does otherwise. *)
Theorem names_always_resolve (directive_name role_name : str) :
  (exists cls, lookup_directive directive_name = (Some cls, []))
  /\ (lookup_directive directive_name = (Some TabsDirective, [])
      <-> exists rest, directive_name = lit "tabs" ++ rest)
  /\ (lookup_directive directive_name = (Some Directive, [])
      <-> forall rest, directive_name <> lit "tabs" ++ rest)
  /\ (tab_set_family directive_name ->
      lookup_directive directive_name = (Some TabsDirective, []))
  /\ lookup_role role_name = (Some handle_role, [])
  /\ (forall typ rawtext text lineno, exists label target,
        handle_role typ rawtext text lineno = ([role typ text label target], []))
  /\ (forall fm get_source_and_line inline_text nested_parse
             (yaml : Type) (load_yaml : str -> result (list yaml))
             (check_type : yaml -> LoadError + LegacyTabsDefinition) (self : Self),
        let tabs_run :=
          run_class fm get_source_and_line inline_text nested_parse
                    yaml load_yaml check_type TabsDirective self in
        let generic_run :=
          Directive_run fm get_source_and_line inline_text nested_parse self in
        (In (lit "tabs:") (content self) ->
         tabs_run = migrate_legacy_tabs get_source_and_line inline_text nested_parse
                                        yaml load_yaml check_type self)
        /\ (~ In (lit "tabs:") (content self) -> tabs_run = generic_run)
        /\ run_class fm get_source_and_line inline_text nested_parse
                     yaml load_yaml check_type Directive self = generic_run).
Proof.
  pose proof (startswith_prefix directive_name (lit "tabs")) as Hp.
  assert (Htabs : (exists rest, directive_name = lit "tabs" ++ rest) ->
                  lookup_directive directive_name = (Some TabsDirective, [])).
  { intros H. apply Hp in H. unfold lookup_directive. now rewrite H. }
  split; [|split; [|split; [|split; [|split; [reflexivity|split]]]]].
  - unfold lookup_directive.
    destruct (startswith directive_name (lit "tabs")); now eexists.
  - split; [|exact Htabs].
    unfold lookup_directive.
    destruct (startswith directive_name (lit "tabs")); [|discriminate].
    intros _. now apply (proj1 Hp).
  - unfold lookup_directive.
    destruct (startswith directive_name (lit "tabs")) eqn:E; split.
    + discriminate.
    + intros H. destruct (proj1 Hp eq_refl) as [rest Hr]. now apply H in Hr.
    + intros _ rest Hr.
      assert (Ht : false = true) by (apply Hp; now exists rest).
      discriminate Ht.
    + reflexivity.
  - intros [->|[suffix ->]]; apply Htabs.
    + now exists [].
    + now exists (ch "-" :: suffix).
  - intros typ rawtext text lineno. unfold handle_role, role_init.
    destruct (re_match PAT_EXPLICIT_TILE text); now do 2 eexists.
  - intros. subst tabs_run generic_run. cbn [run_class]. unfold TabsDirective_run.
    pose proof (has_tabs_line_iff self) as Hiff.
    destruct (has_tabs_line self); repeat split; auto.
    + intros Hno. exfalso. apply Hno. now apply Hiff.
    + intros Hin. apply Hiff in Hin. discriminate Hin.
Qed.

(** The name [tabsfoo] is not in the tab-set family and resolves to the
    tabs builder all the same: with a legacy content the node is named
    [tabs] and has the option [tabset: tabsfoo], where the generic builder
    gives a node named [tabsfoo]. *)
Lemma tabsfoo_reaches_the_tabs_builder :
  ~ other_names_are_generic
  /\ ~ tab_set_family (lit "tabsfoo")
  /\ lookup_directive (lit "tabsfoo") = (Some TabsDirective, [])
  /\ (exists kids,
        run_class field_marker plain_source_and_line plain_inline_text
                  plain_nested_parse unit (fun _ => Ok [tt]) (fun _ => inr two_tabs)
                  TabsDirective tabsfoo_self =
        Ok [directive (lit "tabs")
              [(lit "hidden", OBool true); (lit "tabset", OStr (lit "tabsfoo"))]
              kids (lit "index.rst") 30])
  /\ (exists kids,
        run_class field_marker plain_source_and_line plain_inline_text
                  plain_nested_parse unit (fun _ => Ok [tt]) (fun _ => inr two_tabs)
                  Directive tabsfoo_self =
        Ok [directive (lit "tabsfoo") [] kids (lit "index.rst") 30]).
Proof.
  assert (Hout : ~ tab_set_family (lit "tabsfoo")).
  { intros [E|[suffix E]]; discriminate E. }
  split; [|split; [exact Hout|split; [reflexivity|split]]].
  - intros H. specialize (H (lit "tabsfoo") Hout). discriminate H.
  - eexists. vm_compute. reflexivity.
  - eexists. vm_compute. reflexivity.
Qed.

(** * Further properties *)

(** ** Roles with and without an explicit title *)

(** The two outcomes of [PAT_EXPLICIT_TILE] on a text. *)
Lemma explicit_title_cases (text : str) :
  (exists label ws target tail m,
      explicit_form text label ws target tail
      /\ (forall label' ws' target' tail',
            explicit_form text label' ws' target' tail' ->
            (length label <= length label')%nat)
      /\ re_match PAT_EXPLICIT_TILE text = Some m
      /\ named m "label" = Some label /\ named m "target" = Some target)
  \/ ((forall label ws target tail, ~ explicit_form text label ws target tail)
      /\ re_match PAT_EXPLICIT_TILE text = None).
Proof.
  unfold re_match. rewrite explicit_title_run.
  destruct (first_success_seq (fun k => run title_tail (after_label text k))
                              (length text) 1)
    as [[Hnone Hflat]|(k & x & xs & Hk & Hbefore & Hkx & others & Hflat)];
    rewrite Hflat.
  - right. split; auto.
    intros label ws target tail Hform.
    destruct (explicit_form_after_label _ _ _ _ _ Hform) as [Hrange [s' Hin]].
    rewrite Hnone in Hin by lia. destruct Hin.
  - left.
    assert (Hin : In x (run title_tail (after_label text k)))
      by (rewrite Hkx; now left).
    destruct (after_label_explicit_form text k x Hk Hin)
      as (ws & target & tail & Hform & Hcaps).
    exists (firstn k text), ws, target, tail. eexists.
    split; [exact Hform|]. split; [|split; [reflexivity|]].
    + intros label' ws' target' tail' Hform'.
      destruct (explicit_form_after_label _ _ _ _ _ Hform') as [Hrange [s' Hin']].
      rewrite length_firstn.
      destruct (Nat.lt_ge_cases (length label') k) as [Hlt|Hge]; [|lia].
      rewrite Hbefore in Hin' by lia. destruct Hin'.
    + unfold named. cbn [m_groups]. rewrite Hcaps. split; reflexivity.
Qed.

(** Two runs of a class, each followed by a character outside the class,
    are the same run. *)
Lemma class_run_unique p (a b : str) (x y : char) (u v : str) :
  forallb p a = true -> forallb p b = true -> p x = false -> p y = false ->
  a ++ x :: u = b ++ y :: v -> a = b /\ x = y /\ u = v.
Proof.
  revert b. induction a as [|c a IH]; intros [|d b] Ha Hb Hx Hy E;
    cbn [app forallb] in *.
  - now injection E as -> ->.
  - injection E as -> _. apply andb_prop in Hb as [Hb _]. congruence.
  - injection E as -> _. apply andb_prop in Ha as [Ha _]. congruence.
  - injection E as -> E. apply andb_prop in Ha as [_ Ha].
    apply andb_prop in Hb as [_ Hb].
    destruct (IH b Ha Hb Hx Hy E) as (-> & -> & ->). auto.
Qed.

Lemma last_app_nonempty (a b : str) (d : char) :
  b <> [] -> last (a ++ b) d = last b d.
Proof.
  intros Hb. induction a as [|c a IH]; auto.
  cbn [app]. destruct (a ++ b) eqn:E; [|exact IH].
  apply app_eq_nil in E as [_ ->]. congruence.
Qed.

Lemma last_In (l : str) (d : char) : l <> [] -> In (last l d) l.
Proof.
  induction l as [|c l IH]; [congruence|]. intros _.
  destruct l as [|c' l]; [now left|]. right. apply IH. discriminate.
Qed.

Lemma app_prefix_split {A} (a b u v : list A) :
  a ++ u = b ++ v -> (length a <= length b)%nat ->
  exists r, b = a ++ r /\ u = r ++ v.
Proof.
  revert b. induction a as [|x a IH]; intros b E Hlen; cbn [app] in *.
  - now exists b.
  - destruct b as [|y b]; [cbn in Hlen; lia|].
    cbn [app length] in *. injection E as -> E.
    destruct (IH b E ltac:(lia)) as (r & -> & ->). now exists r.
Qed.

Lemma forallb_takewhile_all p (s : str) :
  dropwhile p s = [] -> forallb p s = true.
Proof.
  induction s as [|c s IH]; cbn [dropwhile forallb]; auto.
  destruct (p c); [auto|discriminate].
Qed.

Lemma dropwhile_head p (s : str) (c : char) (t : str) :
  dropwhile p s = c :: t -> p c = false.
Proof.
  induction s as [|x s IH]; cbn [dropwhile]; [discriminate|].
  destruct (p x) eqn:E; auto. intros [= -> _]. exact E.
Qed.

(** X1: a text made of a label without [<] that ends with no whitespace,
    then any whitespace, then [<target>] at the end of the text, with no
    escape marker right before [<], is split there: the label is the part
    before the whitespace and the target is all that is between the first
    [<] and the final [>]. *)
Theorem role_title_before_angle (name rawtext label ws target : str) (lineno : Z) :
  label <> [] -> ~ In (ch "<") label -> isspace (last label SP) = false ->
  forallb isspace ws = true -> last (label ++ ws) SP <> NUL ->
  role_init name rawtext (label ++ ws ++ [ch "<"] ++ target ++ [ch ">"]) lineno =
  role name (label ++ ws ++ [ch "<"] ++ target ++ [ch ">"])
       (LabelText (Some label) lineno) (Some target).
Proof.
  intros Hlabel Hangle Hlast Hws Hesc.
  set (text := label ++ ws ++ [ch "<"] ++ target ++ [ch ">"]).
  assert (Hform : explicit_form text label ws target []).
  { repeat split; auto. }
  unfold role_init.
  destruct (explicit_title_cases text)
    as [(label0 & ws0 & target0 & tail0 & m & Hform0 & Hmin & -> & -> & ->)
       |[Hnone _]]; [|now apply Hnone in Hform].
  specialize (Hmin _ _ _ _ Hform).
  destruct Hform0 as (Htext0 & _ & Hws0 & Htail0 & _).
  unfold text in Htext0 at 1.
  destruct (app_prefix_split _ _ _ _ (eq_sym Htext0) Hmin) as (r & Hr & Hrest).
  assert (r = []) as ->.
  { destruct (list_eq_dec N.eq_dec r []) as [|Hne]; auto. exfalso.
    assert (Hlast_r : isspace (last r SP) = false).
    { rewrite Hr in Hlast. now rewrite last_app_nonempty in Hlast. }
    destruct (dropwhile isspace r) as [|y v] eqn:Hdrop.
    - apply forallb_takewhile_all in Hdrop. rewrite forallb_forall in Hdrop.
      rewrite (Hdrop _ (last_In r SP Hne)) in Hlast_r. discriminate.
    - pose proof (dropwhile_head _ _ _ _ Hdrop) as Hy.
      rewrite <- (takewhile_dropwhile isspace r), Hdrop, <- app_assoc in Hrest.
      cbn [app] in Hrest.
      destruct (class_run_unique isspace ws0 (takewhile isspace r) (ch "<") y _ _
                  Hws0 (takewhile_forallb isspace r) eq_refl Hy Hrest)
        as (_ & Hy' & _).
      apply Hangle. rewrite Hr. apply in_or_app. right.
      rewrite <- (takewhile_dropwhile isspace r), Hdrop.
      apply in_or_app. right. left. now symmetry. }
  rewrite app_nil_r in Hr. subst label0. cbn [app] in Hrest.
  destruct (class_run_unique isspace ws0 ws (ch "<") (ch "<") _ _
              Hws0 Hws eq_refl eq_refl Hrest) as (_ & _ & Htarget).
  destruct Htail0 as [->| ->].
  - apply app_inj_tail in Htarget as [-> _]. reflexivity.
  - replace (target0 ++ ch ">" :: [LF]) with ((target0 ++ [ch ">"]) ++ [LF]) in Htarget
      by (now rewrite <- app_assoc).
    apply app_inj_tail in Htarget as [_ H]. discriminate H.
Qed.

Lemma role_title_before_angle_witness :
  role_init (lit "ref") (lit ":ref:`Some Label <some-target>`")
            (lit "Some Label" ++ lit " " ++ [ch "<"] ++ lit "some-target" ++ [ch ">"]) 7 =
  role (lit "ref") (lit "Some Label" ++ lit " " ++ [ch "<"] ++ lit "some-target" ++ [ch ">"])
       (LabelText (Some (lit "Some Label")) 7) (Some (lit "some-target")).
Proof.
  apply (role_title_before_angle (lit "ref") (lit ":ref:`Some Label <some-target>`")
           (lit "Some Label") (lit " ") (lit "some-target") 7).
  - discriminate.
  - vm_compute. intuition discriminate.
  - reflexivity.
  - reflexivity.
  - vm_compute. discriminate.
Defined.

(** X2: a text is left whole, label and target both the text, when none of
    its [<] has a character before it other than the escape marker [\x00]
    (so also when it has no [<] at all), and when it ends neither in [>]
    nor in [>] and a line feed. *)
Theorem role_text_left_whole (name rawtext text : str) (lineno : Z) :
  (forall before after, text = before ++ ch "<" :: after ->
                        before = [] \/ last before SP = NUL)
  \/ (forall before, text <> before ++ [ch ">"] /\ text <> before ++ [ch ">"; LF]) ->
  role_init name rawtext text lineno = role name text (LabelRaw text) (Some text).
Proof.
  intros H. unfold role_init.
  destruct (explicit_title_cases text)
    as [(label & ws & target & tail & m & Hform & _)|[_ ->]]; [exfalso|reflexivity].
  destruct Hform as (Htext & Hlabel & _ & Htail & Hesc).
  destruct H as [H|H].
  - destruct (H (label ++ ws) (target ++ [ch ">"] ++ tail)) as [E|E].
    + rewrite Htext, <- app_assoc. reflexivity.
    + apply app_eq_nil in E as [E _]. congruence.
    + congruence.
  - destruct (H (label ++ ws ++ [ch "<"] ++ target)) as [H1 H2].
    destruct Htail as [->| ->]; [apply H1|apply H2];
      rewrite Htext, <- !app_assoc; reflexivity.
Qed.

Lemma role_text_left_whole_witness :
  role_init (lit "ref") (lit ":ref:`a<b>`") (lit "a" ++ NUL :: lit "<b>") 7 =
  role (lit "ref") (lit "a" ++ NUL :: lit "<b>")
       (LabelRaw (lit "a" ++ NUL :: lit "<b>")) (Some (lit "a" ++ NUL :: lit "<b>")).
Proof.
  apply (role_text_left_whole (lit "ref") (lit ":ref:`a<b>`")
           (lit "a" ++ NUL :: lit "<b>") 7).
  left. intros before after E. right.
  destruct before as [|c0 [|c1 [|c2 before]]]; vm_compute in E.
  - discriminate E.
  - discriminate E.
  - injection E as <- <- _. reflexivity.
  - injection E as _ _ _ E.
    destruct before as [|c3 [|c4 before]]; try discriminate E.
    destruct before; discriminate E.
Defined.

(** ** Option recovery as a whole *)

Lemma po_loop_first_line fm (invocation : str) (lines : list str) (st : po_state) :
  po_loop fm 0 (invocation :: lines) st = po_loop fm 1 lines st.
Proof. reflexivity. Qed.

Lemma parse_options_lines fm (block_text : str) :
  exists invocation lines,
    split LF block_text = invocation :: lines
    /\ parse_options fm block_text =
       (f <- po_loop fm 1 lines po_init ;; Ok (kv (flow_state f))).
Proof.
  unfold parse_options.
  destruct (split LF block_text) as [|invocation lines] eqn:E.
  - exfalso. destruct block_text as [|c s]; cbn [split] in E; [discriminate|].
    destruct (c =? LF)%N; [discriminate|]. destruct (split LF s); discriminate.
  - exists invocation, lines. split; reflexivity.
Qed.

Lemma po_body_index fm (i j : nat) (line : str) (st : po_state) :
  i <> 0%nat -> j <> 0%nat -> po_body fm i line st = po_body fm j line st.
Proof.
  intros Hi Hj. unfold po_body.
  destruct i; [congruence|]. destruct j; [congruence|]. reflexivity.
Qed.

Lemma po_loop_filter fm (lines : list str) : forall (i j : nat) (st : po_state),
  i <> 0%nat -> j <> 0%nat ->
  po_loop fm i lines st =
  po_loop fm j (filter (fun l => negb (blank l)) lines) st.
Proof.
  induction lines as [|line lines IH]; intros i j st Hi Hj; cbn [filter po_loop]; auto.
  unfold blank at 1. destruct (strip line) as [|c0 s0] eqn:Hs; cbn [negb].
  - rewrite po_body_skips by auto. now apply IH.
  - cbn [po_loop]. rewrite (po_body_index fm i j) by assumption.
    destruct (po_body fm j line st) as [[st'|st']|e]; auto.
Qed.

(** X4: option recovery reads neither the invocation line nor the blank
    lines: two block texts whose non-blank lines after the first are the
    same, in the same order, give the same result. *)
Theorem blank_lines_are_not_read fm (block_text block_text' : str) :
  filter (fun l => negb (blank l)) (tl (split LF block_text)) =
  filter (fun l => negb (blank l)) (tl (split LF block_text')) ->
  parse_options fm block_text = parse_options fm block_text'.
Proof.
  intros E.
  destruct (parse_options_lines fm block_text) as (inv & lines & H & ->).
  destruct (parse_options_lines fm block_text') as (inv' & lines' & H' & ->).
  rewrite H, H' in E. cbn [tl] in E.
  rewrite (po_loop_filter fm lines 1 1), (po_loop_filter fm lines' 1 1), E
    by discriminate.
  reflexivity.
Qed.

Lemma blank_lines_are_not_read_witness :
  parse_options field_marker
    (lit ".. figure:: x" ++ [LF] ++ lit "   :alt: picture" ++ [LF; LF]
     ++ lit "   text") =
  parse_options field_marker
    (lit ".. image:: y" ++ [LF; LF] ++ lit "   :alt: picture" ++ [LF]
     ++ lit "  " ++ [LF] ++ lit "   text").
Proof.
  apply (blank_lines_are_not_read field_marker).
  vm_compute. reflexivity.
Defined.

(** ** What the matcher consumes *)

Lemma consumes_refl (s : mstate) : consumes s s.
Proof. now exists []. Qed.

Lemma consumes_trans (s1 s2 s3 : mstate) :
  consumes s1 s2 -> consumes s2 s3 -> consumes s1 s3.
Proof.
  intros (x & Hx & Hx') (y & Hy & Hy'). exists (x ++ y).
  rewrite Hx, Hy, Hy', Hx', rev_app_distr, <- !app_assoc. auto.
Qed.

Lemma star_loop_consumes once greedy
      (Honce : forall s s', In s' (once s) -> consumes s s') (n : nat) :
  forall s s', In s' (star_loop once greedy n s) -> consumes s s'.
Proof.
  induction n as [|n IH]; intros s s' H; cbn [star_loop] in H.
  - destruct H as [<-|[]]. apply consumes_refl.
  - assert (Hmore : In s' (flat_map
                             (fun s1 => if (length (rest s1) <? length (rest s))%nat
                                        then star_loop once greedy n s1 else [])
                             (once s)) -> consumes s s').
    { intros Hin. apply in_flat_map in Hin as (s1 & H1 & Hin).
      destruct (length (rest s1) <? length (rest s))%nat; [|destruct Hin].
      eapply consumes_trans; eauto. }
    destruct greedy.
    + apply in_app_or in H as [H|[<-|[]]]; auto using consumes_refl.
    + destruct H as [<-|H]; auto using consumes_refl.
Qed.

(** Whatever the pattern, a match consumes a prefix of the text ahead. *)
Lemma run_consumes (r : regex) : forall s s', In s' (run r s) -> consumes s s'.
Proof.
  induction r as [|p|a IHa b IHb|a IHa b IHb|greedy a IHa|name a IHa|want a IHa
                  |want p| |]; intros s s' H.
  - destruct H as [<-|[]]. apply consumes_refl.
  - apply in_run_cls in H as (c & cs & Hr & _ & ->).
    exists [c]. cbn [rest seen rev app]. split; auto.
  - apply in_run_seq in H as (x & Hx & H). eapply consumes_trans; eauto.
  - cbn [run] in H. apply in_app_or in H as [H|H]; auto.
  - change (run (Star greedy a) s)
      with (star_loop (run a) greedy (length (rest s)) s) in H.
    eapply star_loop_consumes; eauto.
  - rewrite run_named in H. apply in_map_iff in H as (x & <- & H).
    destruct (IHa _ _ H) as (y & Hy & Hy'). now exists y.
  - cbn [run] in H. destruct (run a s), want; cbn [In] in H; try contradiction;
      destruct H as [<-|[]]; apply consumes_refl.
  - cbn [run] in H. destruct (Bool.eqb _ want); cbn [In] in H; try contradiction;
      destruct H as [<-|[]]; apply consumes_refl.
  - cbn [run] in H. destruct (seen s); cbn [In] in H; try contradiction;
      destruct H as [<-|[]]; apply consumes_refl.
  - apply in_run_eol in H as [_ ->]. apply consumes_refl.
Qed.

(** Group 0 of a match is the start of the text, and what follows it is
    what slicing off its length leaves. *)
Lemma re_match_prefix (r : regex) (text : str) (m : Match) :
  re_match r text = Some m -> text = m_whole m ++ skipn (length (m_whole m)) text.
Proof.
  unfold re_match. destruct (run r (start text)) as [|s l] eqn:E; [discriminate|].
  intros [= <-]. cbn [m_whole].
  destruct (run_consumes r (start text) s) as (x & Hx & Hx').
  { rewrite E. now left. }
  cbn [start rest seen] in Hx, Hx'. rewrite app_nil_r in Hx'.
  rewrite Hx', rev_involutive. rewrite Hx at 2.
  now rewrite skipn_length_app.
Qed.

(** ** Where the recovered options come from *)

Lemma dict_set_In {V} (k k' : str) (v v' : V) (d : dict V) :
  In (k', v') (dict_set k v d) -> (k' = k /\ v' = v) \/ In (k', v') d.
Proof.
  induction d as [|[k0 v0] d IH]; cbn [dict_set In].
  - intros [[= <- <-]|[]]. now left.
  - destruct (str_eqb k0 k) eqn:E; cbn [In].
    + apply str_eqb_eq in E. subst k0.
      intros [[= <- <-]|H]; auto.
    + intros [H|H]; auto. destruct (IH H); auto.
Qed.

Lemma dict_get_In {V} (k : str) (v : V) (d : dict V) :
  dict_get k d = Some v -> In (k, v) d.
Proof.
  induction d as [|[k0 v0] d IH]; cbn [dict_get In]; [discriminate|].
  destruct (str_eqb k0 k) eqn:E; auto.
  apply str_eqb_eq in E. subst k0. intros [= ->]. now left.
Qed.

Lemma po_body_from_marker fm (all : list str) (i : nat) (line : str)
      (st : po_state) (f : flow) :
  (i <> 0%nat -> In line all) ->
  (forall k v, In (k, v) (kv st) -> from_marker fm all k v) ->
  po_body fm i line st = Ok f ->
  forall k v, In (k, v) (kv (flow_state f)) -> from_marker fm all k v.
Proof.
  intros Hline Hinv.
  destruct (Nat.eq_dec i 0) as [Hi|Hi];
    [rewrite po_body_skips by auto; now intros [= <-]|].
  destruct (strip line) as [|c0 s0] eqn:Hs;
    [rewrite po_body_skips by auto; now intros [= <-]|].
  rewrite po_body_eq by congruence. cbv zeta. rewrite Hs.
  destruct (re_match fm (c0 :: s0)) as [m|] eqn:Hm.
  - intros [= <-] k v Hin. cbn [flow_state kv] in Hin.
    apply dict_set_In in Hin as [[-> ->]|Hin]; auto.
    exists line, m, []. rewrite Hs, app_nil_r. repeat split; auto.
  - destruct (indent_of line =? _)%Z; [now intros [= <-]|].
    destruct (current_key st) as [[|c k0]|]; try (now intros [= <-]).
    destruct (dict_get (c :: k0) (kv st)) as [v0|] eqn:Hget; [|discriminate].
    intros [= <-] k v Hin. cbn [flow_state kv] in Hin.
    apply dict_set_In in Hin as [[-> ->]|Hin]; auto.
    apply dict_get_In in Hget.
    destruct (Hinv _ _ Hget) as (l & m & suffix & Hl & Hm' & Hk & Hv & Hsuf).
    exists l, m, (suffix ++ [LF] ++ skipn (Z.to_nat (indent_of line)) line).
    repeat split; auto.
    + now rewrite Hv, <- app_assoc.
    + right. destruct Hsuf as [->|[s ->]]; eexists; reflexivity.
Qed.

Lemma po_loop_from_marker fm (all lines : list str) :
  forall (i : nat) (st : po_state) (f : flow),
  (forall l, In l lines -> In l all) ->
  (forall k v, In (k, v) (kv st) -> from_marker fm all k v) ->
  po_loop fm i lines st = Ok f ->
  forall k v, In (k, v) (kv (flow_state f)) -> from_marker fm all k v.
Proof.
  induction lines as [|line lines IH]; intros i st f Hsub Hinv; cbn [po_loop].
  - now intros [= <-].
  - destruct (po_body fm i line st) as [[st'|st']|e] eqn:E; try discriminate.
    + apply (IH (S i) st' f); [intros l Hl; apply Hsub; now right|].
      exact (po_body_from_marker fm all i line st (Continue st')
               (fun _ => Hsub line (or_introl eq_refl)) Hinv E).
    + intros [= <-].
      exact (po_body_from_marker fm all i line st (Break st')
               (fun _ => Hsub line (or_introl eq_refl)) Hinv E).
Qed.

Lemma parse_options_from_marker fm (block_text : str) (options : dict str) :
  parse_options fm block_text = Ok options ->
  forall k v, In (k, v) options ->
              from_marker fm (tl (split LF block_text)) k v.
Proof.
  intros E.
  destruct (parse_options_lines fm block_text) as (inv & lines & Hsplit & E').
  rewrite E' in E. rewrite Hsplit. cbn [tl].
  destruct (po_loop fm 1 lines po_init) as [f|e] eqn:L; [|discriminate].
  injection E as <-.
  apply (po_loop_from_marker fm lines lines 1 po_init f); auto.
  intros k v [].
Qed.

(** X5: every entry of the recovered mapping comes from a line of the block
    after the first that matches the field-marker pattern: its key is that
    marker without blanks and colons around it, and its value is what
    follows the marker on the stripped line, then possibly continuation
    text that starts on a new line.  The marker and that start of the value
    make up the stripped line. *)
Theorem recovered_options_come_from_markers
        fm (block_text : str) (options : dict str) (k v : str) :
  parse_options fm block_text = Ok options -> In (k, v) options ->
  exists line m suffix,
    In line (tl (split LF block_text))
    /\ re_match fm (strip line) = Some m
    /\ k = strip_chars (N.eqb (ch ":")) (strip (m_whole m))
    /\ v = skipn (length (m_whole m)) (strip line) ++ suffix
    /\ (suffix = [] \/ exists s, suffix = LF :: s)
    /\ strip line = m_whole m ++ skipn (length (m_whole m)) (strip line).
Proof.
  intros E Hin.
  destruct (parse_options_from_marker fm block_text options E k v Hin)
    as (line & m & suffix & Hl & Hm & Hk & Hv & Hsuf).
  exists line, m, suffix. repeat split; auto.
  now apply (re_match_prefix fm).
Qed.

Lemma recovered_options_come_from_markers_witness :
  exists line m suffix,
    In line (tl (split LF key_block_flush))
    /\ re_match field_marker (strip line) = Some m
    /\ lit "key" = strip_chars (N.eqb (ch ":")) (strip (m_whole m))
    /\ lit "a" = skipn (length (m_whole m)) (strip line) ++ suffix
    /\ (suffix = [] \/ exists s, suffix = LF :: s)
    /\ strip line = m_whole m ++ skipn (length (m_whole m)) (strip line).
Proof.
  apply (recovered_options_come_from_markers field_marker key_block_flush
           [(lit "key", lit "a")]).
  - vm_compute. reflexivity.
  - now left.
Defined.

(** ** Keys under the docutils pattern *)

Lemma dropwhile_app_all p (a b : str) :
  forallb p a = true -> dropwhile p (a ++ b) = dropwhile p b.
Proof.
  induction a as [|c a IH]; cbn [app forallb dropwhile]; auto.
  intros H. apply andb_prop in H as [-> H]. auto.
Qed.

Lemma dropwhile_app_last p (l : str) (c : char) :
  p c = false -> dropwhile p (l ++ [c]) = dropwhile p l ++ [c].
Proof.
  intros Hc. induction l as [|x l IH]; cbn [app dropwhile].
  - now rewrite Hc.
  - destruct (p x); auto.
Qed.

(** The text a match of the docutils field marker covers: a colon, a
    character that is neither a colon nor a space, the rest of the name,
    the closing colon and the spaces after it. *)
Lemma field_marker_whole (stripped : str) (m : Match) :
  re_match field_marker stripped = Some m ->
  exists c body spaces,
    m_whole m = ch ":" :: c :: body ++ ch ":" :: spaces
    /\ c <> ch ":" /\ c <> SP
    /\ forallb (N.eqb SP) spaces = true.
Proof.
  unfold re_match.
  destruct (run field_marker (start stripped)) as [|s6 l] eqn:E; [discriminate|].
  intros [= <-]. cbn [m_whole].
  assert (H : In s6 (run field_marker (start stripped))) by (rewrite E; now left).
  clear E l. unfold field_marker, Chr, Plus in H.
  apply in_run_seq in H as (s1 & H1 & H).
  apply in_run_cls in H1 as (c0 & cs & Hr & Hc0 & ->).
  apply N.eqb_eq in Hc0. subst c0. cbn [start rest seen caps] in *. subst stripped.
  apply in_run_seq in H as (s2 & H2 & H).
  assert (Hahead : s2 = MState [ch ":"] cs []
                   /\ (cs = [] \/ exists c r, cs = c :: r /\ c <> ch ":" /\ c <> SP)).
  { cbn [run rest seen caps] in H2. destruct cs as [|c r].
    - destruct H2 as [<-|[]]. auto.
    - destruct ((c =? ch ":") || (c =? SP))%N eqn:Q; [destruct H2|].
      destruct H2 as [<-|[]]. split; auto. right. exists c, r.
      apply orb_false_elim in Q as [Q1 Q2].
      apply N.eqb_neq in Q1, Q2. auto. }
  destruct Hahead as [-> Hcs].
  apply in_run_seq in H as (s3 & H3 & H).
  apply run_consumes in H3 as (x & Hx & Hx'). cbn [rest seen] in Hx, Hx'.
  apply in_run_seq in H as (s4 & H4 & H).
  assert (s4 = s3) as ->.
  { cbn [run] in H4. destruct (Bool.eqb _ false); [|destruct H4].
    now destruct H4 as [<-|[]]. }
  apply in_run_seq in H as (s5 & H5 & H).
  apply in_run_cls in H5 as (c5 & r5 & Hr5 & Hc5 & ->).
  apply N.eqb_eq in Hc5. subst c5.
  assert (Hspaces : exists spaces,
             seen s6 = rev spaces ++ ch ":" :: seen s3
             /\ forallb (N.eqb SP) spaces = true).
  { cbn [run] in H. apply in_app_or in H as [H|H].
    - apply in_flat_map in H as (t & Ht & H).
      apply in_run_cls in Ht as (c & r & Hr & Hc & ->). cbn [rest seen caps] in *.
      apply in_star_cls_sound in H as (k & _ & Hall & ->). cbn [seen].
      exists (c :: firstn k r). cbn [rev forallb].
      split; [now rewrite <- app_assoc|]. rewrite Hc. exact Hall.
    - fold (run Eol (MState (ch ":" :: seen s3) r5 (caps s3))) in H.
      apply in_run_eol in H as [_ ->]. now exists []. }
  destruct Hspaces as (spaces & Hseen & Hall).
  destruct x as [|c x].
  - exfalso. cbn [app] in Hx. rewrite Hr5 in Hx.
    destruct Hcs as [->|(c & r & -> & Hc & _)]; [discriminate|].
    injection Hx as -> _. apply Hc. reflexivity.
  - exists c, x, spaces.
    destruct Hcs as [->|(c' & r & -> & Hc & Hsp)]; [discriminate|].
    cbn [app] in Hx. injection Hx as -> _.
    repeat split; auto.
    rewrite Hseen, Hx'.
    replace (ch ":" :: rev (c :: x) ++ [ch ":"])
      with (([ch ":"] ++ rev (c :: x)) ++ [ch ":"]) by reflexivity.
    rewrite !rev_app_distr, !rev_involutive. cbn [rev app].
    rewrite <- ?app_assoc. reflexivity.
Qed.

Lemma rstrip_spaces (a : str) (c : char) (sp : str) :
  isspace c = false -> forallb isspace sp = true ->
  rstrip (a ++ c :: sp) = a ++ [c].
Proof.
  intros Hc Hsp. unfold rstrip. rewrite rev_app_distr. cbn [rev].
  rewrite <- !app_assoc, dropwhile_app_all.
  - cbn [app dropwhile]. rewrite Hc. cbn [rev]. now rewrite rev_involutive.
  - apply forallb_forall. intros x Hx. apply in_rev in Hx.
    rewrite forallb_forall in Hsp. auto.
Qed.

Lemma field_marker_key (stripped : str) (m : Match) :
  re_match field_marker stripped = Some m ->
  exists c more, marker_key m = c :: more /\ c <> ch ":" /\ c <> SP.
Proof.
  intros H. destruct (field_marker_whole stripped m H)
    as (c & body & spaces & Hw & Hc & Hsp & Hall).
  exists c, (rev (dropwhile (N.eqb (ch ":")) (rev body))).
  split; [|auto].
  assert (Hws : forallb isspace spaces = true).
  { apply forallb_forall. intros x Hx.
    rewrite forallb_forall in Hall. apply Hall, N.eqb_eq in Hx. now subst x. }
  assert (Hstrip : strip (ch ":" :: c :: body ++ ch ":" :: spaces) =
                   ch ":" :: c :: body ++ [ch ":"]).
  { unfold strip, lstrip. cbn [dropwhile].
    change (isspace (ch ":")) with false. cbv iota.
    exact (rstrip_spaces (ch ":" :: c :: body) (ch ":") spaces eq_refl Hws). }
  unfold marker_key. rewrite Hw, Hstrip. unfold strip_chars.
  assert (Hp : (ch ":" =? c)%N = false) by (apply N.eqb_neq; congruence).
  cbn [dropwhile]. rewrite N.eqb_refl, Hp.
  replace (c :: body ++ [ch ":"]) with ((c :: body) ++ [ch ":"]) by reflexivity.
  rewrite rev_app_distr. cbn [rev app dropwhile]. rewrite N.eqb_refl.
  rewrite dropwhile_app_last by assumption.
  rewrite rev_app_distr. reflexivity.
Qed.

(** X6: with the field-marker pattern of docutils, every key of the
    recovered mapping has at least one character, and its first character
    is neither a colon nor a space: an active key is never the empty
    string. *)
Theorem recovered_keys_are_not_empty (block_text : str) (options : dict str) (k v : str) :
  parse_options field_marker block_text = Ok options -> In (k, v) options ->
  exists c more, k = c :: more /\ c <> ch ":" /\ c <> SP.
Proof.
  intros E Hin.
  destruct (parse_options_from_marker field_marker block_text options E k v Hin)
    as (line & m & suffix & _ & Hm & -> & _).
  exact (field_marker_key (strip line) m Hm).
Qed.

Lemma recovered_keys_are_not_empty_witness :
  exists c more, lit "alt" = c :: more /\ c <> ch ":" /\ c <> SP.
Proof.
  apply (recovered_keys_are_not_empty figure_block [(lit "alt", lit "picture")]
           (lit "alt") (lit "picture")).
  - vm_compute. reflexivity.
  - now left.
Defined.

(** ** Re-basing with any number of exempt lines *)

Lemma strip_loop_beyond (n : nat) : forall (a : nat) (lines : list str),
  (length lines <= a)%nat ->
  fold_left (fun lines i =>
               if (i <? length lines)%nat
               then list_set i (lstrip (nth i lines [])) lines else lines)
            (seq a n) lines = lines.
Proof.
  induction n as [|n IH]; intros a lines Ha; cbn [seq fold_left]; auto.
  cbv beta. unfold str in *.
  destruct (a <? _)%nat eqn:E; [apply Nat.ltb_lt in E; lia|].
  apply IH. lia.
Qed.

(** The loop [for i in range(ignore)] left-strips the first lines. *)
Lemma strip_loop (n : nat) : forall (pre later : list str),
  fold_left (fun lines i =>
               if (i <? length lines)%nat
               then list_set i (lstrip (nth i lines [])) lines else lines)
            (seq (length pre) n) (pre ++ later) =
  pre ++ map lstrip (firstn n later) ++ skipn n later.
Proof.
  induction n as [|n IH]; intros pre later; cbn [seq fold_left]; auto.
  cbv beta. unfold str in *. destruct later as [|x later].
  - rewrite app_nil_r, Nat.ltb_irrefl. cbn [firstn skipn map app].
    rewrite app_nil_r. apply strip_loop_beyond. unfold str. lia.
  - destruct (length pre <? _)%nat eqn:E;
      [|apply Nat.ltb_ge in E; rewrite length_app in E; cbn [length] in E; lia].
    rewrite nth_middle, list_set_middle.
    change (pre ++ lstrip x :: later) with (pre ++ [lstrip x] ++ later).
    rewrite app_assoc.
    replace (S (length pre)) with (length (pre ++ [lstrip x]))
      by (rewrite length_app; cbn; lia).
    rewrite IH, <- app_assoc. reflexivity.
Qed.

Lemma common_margin_bound (lines : list str) (m : nat) :
  Forall (fun l => (len l <= sys_maxsize)%Z) lines ->
  common_margin lines = Some m -> (Z.of_nat m < sys_maxsize)%Z.
Proof.
  intros Hlen Hm.
  destruct (common_margin_attained lines m Hm) as (l & Hin & Hl & Hml).
  apply nonblank_indent_lt in Hl. rewrite Forall_forall in Hlen.
  specialize (Hlen l Hin). unfold len in Hlen. lia.
Qed.

Lemma Forall_skipn {A} (P : A -> Prop) (n : nat) (l : list A) :
  Forall P l -> Forall P (skipn n l).
Proof.
  revert n. induction l as [|x l IH]; intros [|n] H; cbn [skipn]; auto.
  apply IH. now inversion H.
Qed.

Lemma length_list_set {A} (i : nat) (v : A) (l : list A) :
  length (list_set i v l) = length l.
Proof.
  revert i. induction l as [|x l IH]; intros [|i]; cbn [list_set length]; auto.
Qed.

Lemma range_of_nat (a n : nat) :
  range (Z.of_nat a) (Z.of_nat (a + n)) = map Z.of_nat (seq a n).
Proof.
  unfold range. replace (Z.to_nat (Z.of_nat (a + n) - Z.of_nat a)) with n by lia.
  assert (H : forall b, map (fun k => (Z.of_nat a + Z.of_nat k)%Z) (seq b n) =
                        map Z.of_nat (seq (a + b) n)).
  { induction n as [|n IH]; intros b; cbn [seq map]; auto.
    f_equal; [lia|]. rewrite IH. now rewrite Nat.add_succ_r. }
  rewrite H. now rewrite Nat.add_0_r.
Qed.

Lemma fold_left_map {A B C} (f : A -> C -> A) (g : B -> C) (l : list B) : forall a,
  fold_left f (map g l) a = fold_left (fun a x => f a (g x)) l a.
Proof. induction l as [|x l IH]; intros a; cbn [map fold_left]; auto. Qed.

Lemma fold_left_ext {A B} (f g : A -> B -> A) (l : list B) :
  (forall a b, f a b = g a b) -> forall a, fold_left f l a = fold_left g l a.
Proof.
  intros H. induction l as [|x l IH]; intros a; cbn [fold_left]; auto.
  now rewrite H, IH.
Qed.

Lemma index_of_nat {A} (i : nat) (l : list A) :
  (i < length l)%nat -> index_of (Z.of_nat i) l = Some i.
Proof.
  intros Hi. unfold index_of, len.
  replace (0 <=? Z.of_nat i)%Z with true by (symmetry; apply Z.leb_le; lia).
  replace (Z.of_nat i <? Z.of_nat (length l))%Z with true
    by (symmetry; apply Z.ltb_lt; lia).
  now rewrite Nat2Z.id.
Qed.

(** The loop over indices in range raises nothing. *)
Lemma slice_loop_in_range (f : str -> str) (idx : list nat) : forall (lines : list str),
  Forall (fun i => (i < length lines)%nat) idx ->
  fold_left (fun (state : result (list str)) i =>
               lines <- state ;;
               match index_of i lines with
               | None => Raise IndexError
               | Some j => Ok (list_set j (f (nth j lines [])) lines)
               end)
            (map Z.of_nat idx) (Ok lines) =
  Ok (fold_left (fun lines i => list_set i (f (nth i lines [])) lines) idx lines).
Proof.
  induction idx as [|i idx IH]; intros lines Hall; cbn [map fold_left]; auto.
  inversion Hall as [|? ? Hi His]; subst. cbn [bind].
  rewrite index_of_nat by assumption. apply IH.
  rewrite length_list_set. exact His.
Qed.

(** On an [ignore] that is not negative the function is [prepare_viewlist]
    and raises nothing. *)
Lemma prepare_viewlist_int_nat (text : str) (ignore : nat) :
  prepare_viewlist_int text (Z.of_nat ignore) = Ok (prepare_viewlist text ignore).
Proof.
  unfold prepare_viewlist_int, prepare_viewlist.
  set (lines := splitlines (expandtabs text)).
  assert (Hslice : slice_from (Z.of_nat ignore) lines = skipn ignore lines).
  { unfold slice_from.
    replace (0 <=? Z.of_nat ignore)%Z with true by (symmetry; apply Z.leb_le; lia).
    now rewrite Nat2Z.id. }
  rewrite Hslice. cbv zeta.
  pose proof (range_of_nat 0 ignore) as Hr. cbn [Z.of_nat Nat.add] in Hr.
  rewrite Hr, fold_left_map.
  rewrite (fold_left_ext
             (fun a x =>
                if (Z.of_nat x <? len a)%Z
                then list_set (Z.to_nat (Z.of_nat x))
                       (lstrip (nth (Z.to_nat (Z.of_nat x)) a [])) a
                else a)
             (fun lines i =>
                if (i <? length lines)%nat
                then list_set i (lstrip (nth i lines [])) lines
                else lines)).
  2: { intros a b. rewrite Nat2Z.id. unfold len.
       destruct (b <? length a)%nat eqn:E.
       - apply Nat.ltb_lt in E.
         now replace (Z.of_nat b <? Z.of_nat (length a))%Z with true
           by (symmetry; apply Z.ltb_lt; lia).
       - apply Nat.ltb_ge in E.
         now replace (Z.of_nat b <? Z.of_nat (length a))%Z with false
           by (symmetry; apply Z.ltb_ge; lia). }
  match goal with
  | |- context [fold_left ?f (seq 0 ignore) lines] =>
      set (stripped := fold_left f (seq 0 ignore) lines)
  end.
  destruct (find_margin (skipn ignore lines) <? sys_maxsize)%Z; [|reflexivity].
  destruct (Nat.le_gt_cases ignore (length stripped)) as [Hle|Hgt].
  - unfold len.
    assert (Hrange : range (Z.of_nat ignore) (Z.of_nat (length stripped)) =
                     map Z.of_nat (seq ignore (length stripped - ignore))).
    { rewrite <- range_of_nat. do 2 f_equal. lia. }
    unfold str in *. rewrite Hrange.
    pose proof slice_loop_in_range as L. unfold str in L. rewrite L; [reflexivity|].
    apply Forall_forall. intros i Hi. apply in_seq in Hi.
    cbv beta. unfold str in *. lia.
  - unfold range, len. unfold str in *.
    replace (Z.to_nat (Z.of_nat (length stripped) - Z.of_nat ignore)) with 0%nat by lia.
    replace (length stripped - ignore)%nat with 0%nat by lia.
    reflexivity.
Qed.

(** What the last two steps of [prepare_viewlist] give. *)
Lemma trimmed_spec (lines : list str) :
  trimmed lines (append_separator (pop_leading_empty lines)).
Proof.
  destruct (pop_leading_empty_spec lines) as (k & Hk & Hhead).
  exists k, (pop_leading_empty lines).
  split; [exact Hk|]. split; [exact Hhead|].
  destruct (pop_leading_empty lines) as [|x xs].
  - split; [reflexivity|]. split; intros H; exfalso; now apply H.
  - cbn [append_separator]. split; [discriminate|].
    unfold str in *. split; intros _ H; destruct (last (x :: xs) []); congruence.
Qed.

(** The two loops of [prepare_viewlist] re-base the lines. *)
Lemma prepare_viewlist_rebased_with (text : str) (ignore : nat) :
  Forall (fun l => (len l <= sys_maxsize)%Z) (splitlines (expandtabs text)) ->
  prepare_viewlist text ignore =
  append_separator
    (pop_leading_empty (rebased_with ignore (splitlines (expandtabs text)))).
Proof.
  intros Hlen. unfold prepare_viewlist, rebased_with.
  set (lines := splitlines (expandtabs text)) in *.
  pose proof (strip_loop ignore [] lines) as Hs. cbn [length app] in Hs.
  rewrite Hs. clear Hs.
  unfold find_margin. rewrite find_margin_from.
  destruct (common_margin (skipn ignore lines)) as [m|] eqn:Hm.
  - pose proof (common_margin_bound _ m (Forall_skipn _ ignore _ Hlen) Hm) as Hb.
    replace (Z.min sys_maxsize (Z.of_nat m)) with (Z.of_nat m) by lia.
    replace (Z.of_nat m <? sys_maxsize)%Z with true by (symmetry; apply Z.ltb_lt; lia).
    rewrite Nat2Z.id.
    assert (Hi : (ignore < length lines)%nat).
    { destruct (Nat.lt_ge_cases ignore (length lines)) as [|Hge]; auto.
      rewrite skipn_all2 in Hm by assumption. discriminate Hm. }
    assert (Hpre : length (map lstrip (firstn ignore lines)) = ignore)
      by (rewrite length_map, length_firstn; lia).
    rewrite length_app, Hpre, length_skipn.
    replace (ignore + (length lines - ignore) - ignore)%nat
      with (length (skipn ignore lines)) by (rewrite length_skipn; lia).
    rewrite <- Hpre at 1.
    now rewrite (slice_loop (skipn m) (skipn ignore lines)).
  - now rewrite Z.ltb_irrefl.
Qed.

(** X7: on an [ignore] that is not negative [prepare_viewlist] raises
    nothing.  It left-strips the first [ignore] lines and removes from the
    other lines the common margin of the non-blank ones among them; of the
    lines re-based so it drops the empty lines at the start, all of them and
    no other line, and when a line is left it ends the result with an empty
    line, added only if the last line is not empty.  With [ignore = 0] no
    line is left-stripped, and when [ignore] is at least the number of lines
    every line is. *)
Theorem prepare_viewlist_with_ignore (text : str) (ignore : Z) :
  (0 <= ignore)%Z ->
  Forall (fun l => (len l <= sys_maxsize)%Z) (splitlines (expandtabs text)) ->
  exists out,
    prepare_viewlist_int text ignore = Ok out
    /\ trimmed (rebased_with (Z.to_nat ignore) (splitlines (expandtabs text))) out
    /\ (ignore = 0%Z ->
        trimmed (match common_margin (splitlines (expandtabs text)) with
                 | Some m => map (skipn m) (splitlines (expandtabs text))
                 | None => splitlines (expandtabs text)
                 end) out)
    /\ ((len (splitlines (expandtabs text)) <= ignore)%Z ->
        trimmed (map lstrip (splitlines (expandtabs text))) out).
Proof.
  intros Hpos Hlen.
  exists (prepare_viewlist text (Z.to_nat ignore)).
  rewrite <- (Z2Nat.id ignore Hpos) at 1.
  split; [apply prepare_viewlist_int_nat|].
  rewrite (prepare_viewlist_rebased_with text (Z.to_nat ignore) Hlen).
  split; [apply trimmed_spec|]. split.
  - intros ->. apply trimmed_spec.
  - intros Hall. unfold rebased_with, len in *.
    rewrite firstn_all2, skipn_all2 by lia.
    cbn [common_margin]. rewrite app_nil_r. apply trimmed_spec.
Qed.

Lemma prepare_viewlist_with_ignore_witness :
  exists out,
    prepare_viewlist_int indented_content 0 = Ok out
    /\ trimmed (rebased_with 0 (splitlines (expandtabs indented_content))) out
    /\ (0%Z = 0%Z ->
        trimmed (match common_margin (splitlines (expandtabs indented_content)) with
                 | Some m => map (skipn m) (splitlines (expandtabs indented_content))
                 | None => splitlines (expandtabs indented_content)
                 end) out)
    /\ ((len (splitlines (expandtabs indented_content)) <= 0)%Z ->
        trimmed (map lstrip (splitlines (expandtabs indented_content))) out).
Proof.
  refine (prepare_viewlist_with_ignore indented_content 0 _ _); [lia|].
  apply Forall_forall. intros l Hin. vm_compute in Hin.
  repeat (destruct Hin as [<-|Hin]; [vm_compute; intros X; discriminate X|]).
  destruct Hin.
Defined.

(** ** Indentation and characters after re-basing *)

Lemma skipn_within_indent (l : str) : forall m,
  (m <= indent l)%nat ->
  takewhile isspace (skipn m l) = skipn m (takewhile isspace l)
  /\ dropwhile isspace (skipn m l) = dropwhile isspace l.
Proof.
  unfold indent. induction l as [|c l IH]; intros [|m] Hm; cbn [skipn]; auto.
  cbn [takewhile dropwhile] in *. destruct (isspace c); cbn [length skipn] in *;
    [|lia].
  apply IH. lia.
Qed.

Lemma In_pop_leading_empty (x : str) (lines : list str) :
  In x lines -> x <> [] -> In x (pop_leading_empty lines).
Proof.
  intros Hin Hx. induction lines as [|y lines IH]; [destruct Hin|].
  cbn [pop_leading_empty]. destruct y as [|c y]; [|exact Hin].
  destruct Hin as [<-|Hin]; [congruence|auto].
Qed.

Lemma In_append_separator (x : str) (lines : list str) :
  In x lines -> In x (append_separator lines).
Proof.
  intros Hin. destruct lines as [|l ls]; [destruct Hin|].
  cbn [append_separator]. destruct (last (l :: ls) []); auto.
  apply in_or_app. now left.
Qed.

(** X8: with the first line exempt, re-basing keeps every non-blank later
    line, without its first [m] characters where [m] is the common margin:
    the text after its indentation is unchanged, its indentation is less by
    exactly [m], and one of these lines ends up with no indentation. *)
Theorem rebasing_keeps_relative_indentation
        (text first : str) (later : list str) (m : nat) :
  Forall (fun l => (len l <= sys_maxsize)%Z) (splitlines (expandtabs text)) ->
  splitlines (expandtabs text) = first :: later ->
  common_margin later = Some m ->
  (forall l, In l later -> nonblank l = true ->
             In (skipn m l) (prepare_viewlist text 1)
             /\ lstrip (skipn m l) = lstrip l
             /\ (indent (skipn m l) + m = indent l)%nat)
  /\ (exists l, In l later /\ nonblank l = true
                /\ In (skipn m l) (prepare_viewlist text 1)
                /\ indent (skipn m l) = 0%nat).
Proof.
  intros Hlen Hlines Hm.
  assert (Hline : forall l, In l later -> nonblank l = true ->
                            In (skipn m l) (prepare_viewlist text 1)
                            /\ lstrip (skipn m l) = lstrip l
                            /\ (indent (skipn m l) + m = indent l)%nat).
  { intros l Hin Hl.
    pose proof (common_margin_le later m Hm l Hin Hl) as Hle.
    destruct (skipn_within_indent l m Hle) as [Htake Hdrop].
    split; [|split].
    - rewrite (prepare_viewlist_rebased text Hlen), Hlines. cbn [rebased].
      rewrite Hm. apply In_append_separator, In_pop_leading_empty.
      + right. now apply in_map.
      + unfold nonblank, lstrip in Hl. rewrite <- Hdrop in Hl.
        intros E. rewrite E in Hl. discriminate Hl.
    - exact Hdrop.
    - unfold indent in *. rewrite Htake, length_skipn. lia. }
  split; [exact Hline|].
  destruct (common_margin_attained later m Hm) as (l & Hin & Hl & Hml).
  exists l. destruct (Hline l Hin Hl) as (Hout & _ & Hind).
  repeat split; auto. lia.
Qed.

Lemma rebasing_keeps_relative_indentation_witness :
  (forall l, In l [lit "    second"; lit "      third"] -> nonblank l = true ->
             In (skipn 4 l) (prepare_viewlist indented_content 1)
             /\ lstrip (skipn 4 l) = lstrip l
             /\ (indent (skipn 4 l) + 4 = indent l)%nat)
  /\ (exists l, In l [lit "    second"; lit "      third"] /\ nonblank l = true
                /\ In (skipn 4 l) (prepare_viewlist indented_content 1)
                /\ indent (skipn 4 l) = 0%nat).
Proof.
  apply (rebasing_keeps_relative_indentation indented_content (lit "  first")
           [lit "    second"; lit "      third"] 4).
  - apply Forall_forall. intros l Hin. vm_compute in Hin.
    repeat (destruct Hin as [<-|Hin]; [vm_compute; intros X; discriminate X|]).
    destruct Hin.
  - vm_compute. reflexivity.
  - vm_compute. reflexivity.
Defined.

Lemma expandtabs_no_tab (s : str) : forall col, ~ In TAB (expandtabs_from col s).
Proof.
  induction s as [|c s IH]; intros col; cbn [expandtabs_from]; auto.
  destruct (c =? TAB)%N eqn:E.
  - intros Hin. apply in_app_or in Hin as [Hin|Hin].
    + apply repeat_spec in Hin. discriminate Hin.
    + now apply IH in Hin.
  - apply N.eqb_neq in E. intros [Hin|Hin]; [congruence|].
    now apply IH in Hin.
Qed.

Lemma splitlines_chars (n : nat) : forall (s cur : str),
  (length s <= n)%nat ->
  (forall c, In c cur -> is_linebreak c = false) ->
  forall l, In l (splitlines_from cur s) ->
  forall c, In c l -> (In c cur \/ In c s) /\ is_linebreak c = false.
Proof.
  induction n as [|n IH]; intros s cur Hn Hcur l Hl c Hc.
  - destruct s; [|cbn in Hn; lia]. cbn [splitlines_from] in Hl.
    destruct cur as [|x cur]; [destruct Hl|]. destruct Hl as [<-|[]].
    apply in_rev in Hc. auto.
  - destruct s as [|c0 s'].
    + cbn [splitlines_from] in Hl.
      destruct cur as [|x cur]; [destruct Hl|]. destruct Hl as [<-|[]].
      apply in_rev in Hc. auto.
    + cbn [splitlines_from] in Hl. cbn [length] in Hn.
      destruct (is_linebreak c0) eqn:B.
      * destruct Hl as [<-|Hl]; [apply in_rev in Hc; auto|].
        destruct s' as [|c1 s'']; [destruct Hl|].
        assert (Hnil : forall x : char, In x [] -> is_linebreak x = false)
          by (intros x []).
        destruct ((c0 =? CR)%N && (c1 =? LF)%N).
        -- destruct (IH s'' [] ltac:(cbn [length] in Hn; lia) Hnil l Hl c Hc)
             as [[[]|H] H']. split; auto. right. right. now right.
        -- destruct (IH (c1 :: s'') [] ltac:(lia) Hnil l Hl c Hc)
             as [[[]|H] H']. split; auto. right. now right.
      * assert (Hcur' : forall x, In x (c0 :: cur) -> is_linebreak x = false)
          by (intros x [<-|Hx]; auto).
        destruct (IH s' (c0 :: cur) ltac:(lia) Hcur' l Hl c Hc) as [[[<-|H]|H] H'];
          split; auto.
        -- right. now left.
        -- right. now right.
Qed.

Lemma Forall_dropwhile {P : char -> Prop} p (l : str) :
  Forall P l -> Forall P (dropwhile p l).
Proof.
  induction 1 as [|c l Hc Hl IH]; cbn [dropwhile]; auto.
  destruct (p c); auto.
Qed.

Lemma Forall_list_set {A} (P : A -> Prop) (i : nat) (v : A) (l : list A) :
  Forall P l -> P v -> Forall P (list_set i v l).
Proof.
  intros Hl Hv. revert i. induction Hl as [|x l Hx Hl IH]; intros [|i];
    cbn [list_set]; auto.
Qed.

Lemma Forall_nth {A} (P : A -> Prop) (i : nat) (d : A) (l : list A) :
  Forall P l -> P d -> P (nth i l d).
Proof.
  intros Hl Hd. revert i. induction Hl as [|x l Hx Hl IH]; intros [|i];
    cbn [nth]; auto.
Qed.

Lemma Forall_fold_left {A B} (P : A -> Prop) (f : A -> B -> A) (l : list B) :
  (forall a b, P a -> P (f a b)) -> forall a, P a -> P (fold_left f l a).
Proof.
  intros Hf. induction l as [|b l IH]; intros a Ha; cbn [fold_left]; auto.
Qed.

Lemma Forall_pop_leading_empty (P : str -> Prop) (lines : list str) :
  Forall P lines -> Forall P (pop_leading_empty lines).
Proof.
  induction 1 as [|l ls Hl Hls IH]; cbn [pop_leading_empty]; auto.
  destruct l; auto.
Qed.

Lemma Forall_append_separator (P : str -> Prop) (lines : list str) :
  Forall P lines -> P [] -> Forall P (append_separator lines).
Proof.
  intros Hl Hnil. destruct lines as [|l ls]; auto.
  cbn [append_separator]. destruct (last (l :: ls) []); auto.
  apply Forall_app. split; auto.
Qed.

(** X9: for every text and every integer [ignore], negative ones
    included, [prepare_viewlist] raises nothing but [IndexError], and no
    line it returns holds a tab or a line boundary: tabs were expanded and
    the text was cut at every boundary. *)
Theorem prepared_lines_are_plain (text : str) (ignore : Z) :
  match prepare_viewlist_int text ignore with
  | Ok out => Forall (fun line => Forall inline_char line) out
  | Raise e => e = IndexError
  end.
Proof.
  set (P := fun line : str => Forall inline_char line).
  set (Q := fun state : result (list str) =>
              match state with
              | Ok out => Forall P out
              | Raise e => e = IndexError
              end).
  assert (Hnil : P []) by constructor.
  assert (Hlines : Forall P (splitlines (expandtabs text))).
  { apply Forall_forall. intros l Hl. apply Forall_forall. intros c Hc.
    destruct (splitlines_chars (length (expandtabs text)) (expandtabs text) []
                (le_n _) (fun x (H : In x []) => match H with end) l Hl c Hc)
      as [[[]|Hin] Hb].
    split; auto. intros ->. now apply (expandtabs_no_tab text 0). }
  assert (Hstrip : forall (a : list str) (i : Z), Forall P a ->
            Forall P (if (i <? len a)%Z
                      then list_set (Z.to_nat i) (lstrip (nth (Z.to_nat i) a [])) a
                      else a)).
  { intros a i Ha. destruct (i <? len a)%Z; auto.
    apply Forall_list_set; auto. apply Forall_dropwhile. now apply Forall_nth. }
  assert (Hslice : forall (k : nat) (state : result (list str)) (i : Z), Q state ->
            Q (lines <- state ;;
               match index_of i lines with
               | None => Raise IndexError
               | Some j => Ok (list_set j (skipn k (nth j lines [])) lines)
               end)).
  { intros k [a|e] i Hq; cbn [bind]; [|exact Hq].
    destruct (index_of i a) as [j|]; cbn [Q]; [|reflexivity].
    apply Forall_list_set; auto. apply Forall_skipn. now apply Forall_nth. }
  change (Q (prepare_viewlist_int text ignore)).
  unfold prepare_viewlist_int. cbv zeta.
  match goal with
  | |- Q (bind ?m _) => assert (Hm : Q m)
  end.
  { destruct (_ <? sys_maxsize)%Z.
    - apply Forall_fold_left; [intros a i; apply Hslice|].
      cbn [Q]. apply Forall_fold_left; [intros a i; apply Hstrip|exact Hlines].
    - cbn [Q]. apply Forall_fold_left; [intros a i; apply Hstrip|exact Hlines]. }
  match goal with
  | |- Q (bind ?m _) => destruct m as [out|e]
  end; cbn [bind]; [|exact Hm].
  cbn [Q] in *. apply Forall_append_separator; auto.
  now apply Forall_pop_leading_empty.
Qed.

(** ** A negative number of exempt lines *)

Lemma range_empty (a b : Z) : (b <= a)%Z -> range a b = [].
Proof.
  intros H. unfold range. now replace (Z.to_nat (b - a)) with 0%nat by lia.
Qed.

Lemma range_cons (a b : Z) : (a < b)%Z -> range a b = a :: range (a + 1) b.
Proof.
  intros H. unfold range.
  replace (Z.to_nat (b - a)) with (S (Z.to_nat (b - (a + 1)))) by lia.
  cbn [seq map]. f_equal; [lia|].
  rewrite <- seq_shift, map_map. apply map_ext. intros k. lia.
Qed.

Lemma range_app (a c b : Z) :
  (a <= c <= b)%Z -> range a b = range a c ++ range c b.
Proof.
  intros H. unfold range.
  replace (Z.to_nat (b - a)) with (Z.to_nat (c - a) + Z.to_nat (b - c))%nat by lia.
  rewrite seq_app, map_app. f_equal. cbn [Nat.add].
  rewrite <- (Nat.add_0_r (Z.to_nat (c - a))) at 1.
  generalize 0%nat as s. generalize (Z.to_nat (b - c)) as n.
  induction n as [|n IH]; intros s; cbn [seq map]; auto.
  f_equal; [lia|]. rewrite <- IH. now rewrite Nat.add_succ_r.
Qed.

Lemma slice_loop_raised (margin : Z) (e : exc) (zs : list Z) :
  fold_left (fun (state : result (list str)) i =>
               lines <- state ;;
               match index_of i lines with
               | None => Raise IndexError
               | Some j =>
                   Ok (list_set j (skipn (Z.to_nat margin) (nth j lines [])) lines)
               end)
            zs (Raise e) = Raise e.
Proof. induction zs as [|z zs IH]; cbn [fold_left bind]; auto. Qed.

Lemma common_margin_some (lines : list str) (l : str) :
  In l lines -> nonblank l = true -> exists m, common_margin lines = Some m.
Proof.
  induction lines as [|x ls IH]; intros Hin Hl; [destruct Hin|].
  cbn [common_margin]. destruct Hin as [->|Hin].
  - rewrite Hl. destruct (common_margin ls); now eexists.
  - destruct (IH Hin Hl) as [m ->]. destruct (nonblank x); now eexists.
Qed.

Lemma find_margin_eq (lines : list str) :
  Forall (fun l => (len l <= sys_maxsize)%Z) lines ->
  find_margin lines =
  match common_margin lines with
  | Some m => Z.of_nat m
  | None => sys_maxsize
  end
  /\ ((find_margin lines <? sys_maxsize)%Z =
      match common_margin lines with Some _ => true | None => false end).
Proof.
  intros Hlen. unfold find_margin. rewrite find_margin_from.
  destruct (common_margin lines) as [m|] eqn:Hm.
  - pose proof (common_margin_bound lines m Hlen Hm) as Hb.
    replace (Z.min sys_maxsize (Z.of_nat m)) with (Z.of_nat m) by lia.
    split; auto. apply Z.ltb_lt. lia.
  - split; [reflexivity|apply Z.ltb_irrefl].
Qed.

(** X16: an [ignore] below minus the number of lines.  The margin is then
    that of all the lines.  When a line is not blank the last loop starts at
    an index that no line has, and the call raises [IndexError]; when every
    line is blank no loop changes a line, and the result is the lines
    without the empty ones at the start and with the separator. *)
Theorem ignore_below_range (text : str) (ignore : Z) :
  (ignore < - len (splitlines (expandtabs text)))%Z ->
  Forall (fun l => (len l <= sys_maxsize)%Z) (splitlines (expandtabs text)) ->
  ((exists l, In l (splitlines (expandtabs text)) /\ nonblank l = true) ->
   prepare_viewlist_int text ignore = Raise IndexError)
  /\ ((forall l, In l (splitlines (expandtabs text)) -> nonblank l = false) ->
      exists out,
        prepare_viewlist_int text ignore = Ok out
        /\ trimmed (splitlines (expandtabs text)) out).
Proof.
  intros Hlow Hlen. unfold prepare_viewlist_int.
  set (lines := splitlines (expandtabs text)) in *.
  assert (Hslice : slice_from ignore lines = lines).
  { unfold slice_from, len in *.
    replace (0 <=? ignore)%Z with false by (symmetry; apply Z.leb_gt; lia).
    now replace (length lines - Z.to_nat (- ignore))%nat with 0%nat by lia. }
  rewrite Hslice, (range_empty 0 ignore) by (unfold len in Hlow; lia).
  cbv zeta. cbn [fold_left].
  destruct (find_margin_eq lines Hlen) as [_ ->].
  split.
  - intros (l & Hin & Hl).
    destruct (common_margin_some lines l Hin Hl) as [m ->].
    rewrite range_cons by (unfold len in *; lia). cbn [fold_left bind].
    assert (Hnone : index_of ignore lines = None).
    { unfold index_of.
      replace (0 <=? ignore)%Z with false by (symmetry; apply Z.leb_gt; unfold len in *; lia).
      now replace (- len lines <=? ignore)%Z with false by (symmetry; apply Z.leb_gt; lia). }
    unfold str in *. rewrite Hnone. unfold char. rewrite slice_loop_raised. reflexivity.
  - intros Hblank.
    destruct (common_margin lines) as [m|] eqn:Hm.
    + destruct (common_margin_attained lines m Hm) as (l & Hin & Hl & _).
      rewrite (Hblank l Hin) in Hl. discriminate Hl.
    + cbn [bind]. eexists. split; [reflexivity|apply trimmed_spec].
Qed.

Lemma ignore_below_range_witness :
  prepare_viewlist_int last_line_indented (-3) = Raise IndexError.
Proof.
  refine (proj1 (ignore_below_range last_line_indented (-3) _ _) _).
  - vm_compute. reflexivity.
  - apply Forall_forall. intros l Hin. vm_compute in Hin.
    repeat (destruct Hin as [<-|Hin]; [vm_compute; intros X; discriminate X|]).
    destruct Hin.
  - exists (lit "first"). split; [vm_compute; auto|reflexivity].
Defined.

(** The loop [for i in range(ignore, len(lines))] over indices that all
    have a position. *)
Lemma slice_loop_at (f : str -> str) (g : nat -> Z) (h : nat -> nat) (n : nat)
      (ks : list nat) :
  (forall k (l : list str), In k ks -> length l = n -> index_of (g k) l = Some (h k)) ->
  forall lines, length lines = n ->
  fold_left (fun (state : result (list str)) i =>
               lines <- state ;;
               match index_of i lines with
               | None => Raise IndexError
               | Some j => Ok (list_set j (f (nth j lines [])) lines)
               end)
            (map g ks) (Ok lines) =
  Ok (fold_left (fun lines i => list_set i (f (nth i lines [])) lines) (map h ks) lines).
Proof.
  induction ks as [|k ks IH]; intros Hk lines Hn; cbn [map fold_left]; auto.
  cbn [bind]. unfold str in *. rewrite (Hk k lines) by (auto; now left).
  apply IH.
  - intros k' l Hin. apply Hk. now right.
  - now rewrite length_list_set.
Qed.

Lemma seq_from (a n : nat) : map (fun k => (a + k)%nat) (seq 0 n) = seq a n.
Proof.
  assert (H : forall s, map (fun k => (a + k)%nat) (seq s n) = seq (a + s) n).
  { induction n as [|n IH]; intros s; cbn [seq map]; auto.
    f_equal. rewrite IH. now rewrite Nat.add_succ_r. }
  rewrite H. now rewrite Nat.add_0_r.
Qed.

(** X17: a negative [ignore] of at most the number of lines raises
    nothing and loses text.  No line is left-stripped; the margin is that of
    the last [-ignore] lines; the last loop visits these lines first, under
    their negative indices, and then every line, so the lines before them
    lose the margin once, whatever their own indentation, and the last
    [-ignore] lines lose it twice. *)
Theorem negative_ignore_cuts_twice (text : str) (ignore : Z) :
  (- len (splitlines (expandtabs text)) <= ignore < 0)%Z ->
  Forall (fun l => (len l <= sys_maxsize)%Z) (splitlines (expandtabs text)) ->
  exists out,
    prepare_viewlist_int text ignore = Ok out
    /\ trimmed (cut_twice (Z.to_nat (- ignore)) (splitlines (expandtabs text))) out.
Proof.
  intros Hrange Hlen. unfold prepare_viewlist_int, cut_twice.
  set (lines := splitlines (expandtabs text)) in *.
  set (j := Z.to_nat (- ignore)).
  set (n := length lines).
  assert (Hj : (1 <= j <= n)%nat) by (unfold len in Hrange; subst j n; lia).
  assert (Hslice : slice_from ignore lines = skipn (n - j) lines).
  { unfold slice_from.
    now replace (0 <=? ignore)%Z with false by (symmetry; apply Z.leb_gt; lia). }
  rewrite Hslice, (range_empty 0 ignore) by lia.
  cbv zeta. cbn [fold_left].
  destruct (find_margin_eq (skipn (n - j) lines) (Forall_skipn _ _ _ Hlen)) as [Hmargin ->].
  rewrite Hmargin.
  destruct (common_margin (skipn (n - j) lines)) as [m|] eqn:Hm.
  2: { cbn [bind]. eexists. split; [reflexivity|apply trimmed_spec]. }
  rewrite Nat2Z.id.
  rewrite (range_app ignore 0 (len lines)) by (unfold len; lia).
  rewrite fold_left_app.
  (* the indices below 0 are the last [j] positions *)
  assert (Hneg : range ignore 0 = map (fun k => (ignore + Z.of_nat k)%Z) (seq 0 j)).
  { unfold range. subst j. do 2 f_equal; lia. }
  pose proof (slice_loop_at (skipn m) (fun k => (ignore + Z.of_nat k)%Z)
                (fun k => (n - j + k)%nat) n (seq 0 j)) as Hlate.
  rewrite seq_from in Hlate.
  pose proof (slice_loop (skipn m) (skipn (n - j) lines) (firstn (n - j) lines)) as Hcut.
  rewrite length_firstn, length_skipn, firstn_skipn in Hcut.
  replace (Nat.min (n - j) (length lines)) with (n - j)%nat in Hcut by (subst n; lia).
  replace (length lines - (n - j))%nat with j in Hcut by (subst n; lia).
  (* the indices from 0 on are all the positions *)
  unfold str in *.
  remember (firstn (n - j) lines ++ map (skipn m) (skipn (n - j) lines))
    as once eqn:Eonce.
  assert (Honce : length once = n).
  { subst once. rewrite length_app, length_map, length_firstn, length_skipn.
    subst n. lia. }
  assert (Hpos : range 0 (len lines) = map Z.of_nat (seq 0 n)).
  { pose proof (range_of_nat 0 n) as H. cbn [Z.of_nat Nat.add] in H. exact H. }
  pose proof (slice_loop_in_range (skipn m) (seq 0 n) once) as Hall.
  pose proof (slice_loop (skipn m) once []) as Hmap.
  unfold str in *.
  cbn [length app] in Hmap. rewrite Honce in Hmap.
  rewrite Hneg, Hlate, Hcut, Hpos, Hall, Hmap.
  - cbn [bind]. eexists. split; [reflexivity|].
    subst once. rewrite map_app, map_map. apply trimmed_spec.
  - apply Forall_forall. intros i Hi. apply in_seq in Hi. cbv beta. lia.
  - intros k l Hin Hl. apply in_seq in Hin. unfold index_of, len.
    replace (0 <=? ignore + Z.of_nat k)%Z with false
      by (symmetry; apply Z.leb_gt; subst j; lia).
    replace (- Z.of_nat (length l) <=? ignore + Z.of_nat k)%Z with true
      by (symmetry; apply Z.leb_le; subst j n; lia).
    f_equal. subst j n. lia.
  - reflexivity.
Qed.

Lemma negative_ignore_cuts_twice_witness :
  exists out,
    prepare_viewlist_int last_line_indented (-1) = Ok out
    /\ trimmed (cut_twice 1 (splitlines (expandtabs last_line_indented))) out.
Proof.
  refine (negative_ignore_cuts_twice last_line_indented (-1) _ _).
  - vm_compute. split; [discriminate|reflexivity].
  - apply Forall_forall. intros l Hin. vm_compute in Hin.
    repeat (destruct Hin as [<-|Hin]; [vm_compute; intros X; discriminate X|]).
    destruct Hin.
Defined.

(** ** The builders as a whole *)

Lemma split_hd (s : str) :
  ~ In LF (hd [] (split LF s))
  /\ (s = hd [] (split LF s) \/ exists more, s = hd [] (split LF s) ++ LF :: more).
Proof.
  induction s as [|c s IH]; cbn [split].
  - split; auto.
  - destruct (c =? LF)%N eqn:E.
    + apply N.eqb_eq in E. subst c. cbn [hd]. split; auto. right. now exists s.
    + apply N.eqb_neq in E. destruct IH as [Hno Hs].
      destruct (split LF s) as [|l ls]; cbn [hd] in *.
      * split; [intros [?|[]]; congruence|].
        destruct Hs as [->|[more ->]]; [now left|right; now exists more].
      * split; [intros [?|?]; [congruence|auto]|].
        destruct Hs as [->|[more ->]]; [now left|right; now exists more].
Qed.

(** X10: the argument of the generic builder.  When the directive has
    arguments, the first child of the node is the argument node, built on the
    first argument cut at its first line feed: its text holds no line feed
    and is the first argument, or is followed in it by a line feed.  The
    inline nodes are those of that text at the line of the directive, and
    the argument carries the source and the line of the node. *)
Theorem argument_is_first_line_only
        fm get_source_and_line inline_text nested_parse (self : Self)
        (a : str) (others : list str) :
  arguments self = a :: others ->
  exists first_line options body source line,
    Directive_run fm get_source_and_line inline_text nested_parse self =
      Ok [directive (name self) options
            (directive_argument first_line
               (fst (inline_text first_line (lineno self))) source line :: body)
            source line]
    /\ get_source_and_line (lineno self) = (source, line)
    /\ ~ In LF first_line
    /\ (a = first_line \/ exists more, a = first_line ++ LF :: more).
Proof.
  intros Ha. destruct (split_hd a) as [Hno Hfirst].
  destruct (parse_options_ok fm (block_text self)) as [options E].
  unfold Directive_run. rewrite E, Ha. cbn [bind].
  destruct (get_source_and_line (lineno self)) as [source line].
  rewrite (surjective_pairing (inline_text (hd [] (split LF a)) (lineno self))).
  destruct (str_in (name self) SPECIAL_DIRECTIVES);
    do 5 eexists; (split; [reflexivity|]); auto.
Qed.

Lemma argument_is_first_line_only_witness :
  exists first_line options body source line,
    Directive_run field_marker plain_source_and_line plain_inline_text
                  plain_nested_parse two_line_argument_self =
      Ok [directive (lit "figure") options
            (directive_argument first_line
               (fst (plain_inline_text first_line 7)) source line :: body)
            source line]
    /\ plain_source_and_line 7 = (source, line)
    /\ ~ In LF first_line
    /\ (lit "a.png" ++ [LF] ++ lit "b.png" = first_line
        \/ exists more, lit "a.png" ++ [LF] ++ lit "b.png" = first_line ++ LF :: more).
Proof.
  exact (argument_is_first_line_only
           field_marker plain_source_and_line plain_inline_text
           plain_nested_parse two_line_argument_self
           (lit "a.png" ++ [LF] ++ lit "b.png") [] eq_refl).
Defined.

Lemma split1_no_sep (sep : char) (s : str) : ~ In sep s -> split1 sep s = [s].
Proof.
  induction s as [|c s IH]; intros H; cbn [split1]; auto.
  destruct (c =? sep)%N eqn:E.
  - apply N.eqb_eq in E. subst c. exfalso. apply H. now left.
  - rewrite IH; auto. intros Hin. apply H. now right.
Qed.

Lemma split1_at_first (sep : char) (pre suf : str) :
  ~ In sep pre -> split1 sep (pre ++ sep :: suf) = [pre; suf].
Proof.
  induction pre as [|c pre IH]; intros H; cbn [app split1].
  - now rewrite N.eqb_refl.
  - destruct (c =? sep)%N eqn:E.
    + apply N.eqb_eq in E. subst c. exfalso. apply H. now left.
    + rewrite IH; auto. intros Hin. apply H. now right.
Qed.

(** The options the migration writes, from the legacy flag and the text
    [tabset] taken from the name. *)
Lemma legacy_options (hidden_flag : option bool) (tabset : str) :
  let options :=
    match tabset with
    | [] => match hidden_flag with
            | Some true => dict_set (lit "hidden") (OBool true) []
            | _ => []
            end
    | _ :: _ =>
        if negb (str_eqb tabset (lit "tabs"))
        then dict_set (lit "tabset") (OStr tabset)
               match hidden_flag with
               | Some true => dict_set (lit "hidden") (OBool true) []
               | _ => []
               end
        else match hidden_flag with
             | Some true => dict_set (lit "hidden") (OBool true) []
             | _ => []
             end
    end in
  dict_get (lit "hidden") options =
    match hidden_flag with Some true => Some (OBool true) | _ => None end
  /\ (tabset = [] \/ tabset = lit "tabs" -> dict_get (lit "tabset") options = None)
  /\ (tabset <> [] -> tabset <> lit "tabs" ->
      dict_get (lit "tabset") options = Some (OStr tabset))
  /\ (forall k, k <> lit "hidden" -> k <> lit "tabset" -> dict_get k options = None).
Proof.
  cbv zeta. destruct tabset as [|c t].
  - destruct hidden_flag as [[|]|]; repeat split; auto; try congruence;
      intros k H1 H2; cbn [dict_set dict_get]; auto;
      rewrite str_eqb_neq; auto.
  - destruct (str_eqb (c :: t) (lit "tabs")) eqn:E; cbn [negb].
    + apply str_eqb_eq in E.
      destruct hidden_flag as [[|]|]; repeat split; auto; try congruence;
        intros k H1 H2; cbn [dict_set dict_get]; auto;
        rewrite str_eqb_neq; auto.
    + assert (Hne : c :: t <> lit "tabs")
        by (intros H; rewrite H, str_eqb_refl in E; discriminate).
      destruct hidden_flag as [[|]|]; repeat split;
        try (intros [H|H]; congruence);
        try (intros; apply dict_get_set_same);
        try (rewrite dict_get_set_other by discriminate; reflexivity);
        try (intros k H1 H2; rewrite dict_get_set_other by auto;
             cbn [dict_set dict_get]; try rewrite str_eqb_neq; auto).
Qed.

Lemma migrate_legacy_tabs_ok
      get_source_and_line inline_text nested_parse
      (yaml : Type) (load_yaml : str -> result (list yaml))
      (check_type : yaml -> LoadError + LegacyTabsDefinition)
      (self : Self) (parsed : yaml) (more : list yaml)
      (loaded : LegacyTabsDefinition) :
  load_yaml (join [LF] (content self)) = Ok (parsed :: more) ->
  check_type parsed = inr loaded ->
  migrate_legacy_tabs get_source_and_line inline_text nested_parse
                      yaml load_yaml check_type self =
  Ok [directive (lit "tabs")
        (let tabset := last (split1 (ch "-") (name self)) [] in
         match tabset with
         | [] => match hidden loaded with
                 | Some true => dict_set (lit "hidden") (OBool true) []
                 | _ => []
                 end
         | _ :: _ =>
             if negb (str_eqb tabset (lit "tabs"))
             then dict_set (lit "tabset") (OStr tabset)
                    match hidden loaded with
                    | Some true => dict_set (lit "hidden") (OBool true) []
                    | _ => []
                    end
             else match hidden loaded with
                  | Some true => dict_set (lit "hidden") (OBool true) []
                  | _ => []
                  end
         end)
        (map (make_tab_node inline_text nested_parse self
                (fst (get_source_and_line (lineno self))))
             (tabs loaded))
        (fst (get_source_and_line (lineno self)))
        (snd (get_source_and_line (lineno self)))].
Proof.
  intros Hload Hcheck. unfold migrate_legacy_tabs.
  rewrite Hload. cbn [bind]. rewrite Hcheck.
  now destruct (get_source_and_line (lineno self)).
Qed.

(** X11: whatever the name it was invoked under, the migration of a valid
    legacy definition returns one node named [tabs] with at most the
    options [hidden] and [tabset].  [hidden] is [True] exactly when the
    legacy flag is true.  [tabset] is the text after the first [-] of the
    name, or the whole name when it has no [-], and is left out when that
    text is empty or is [tabs]. *)
Theorem legacy_tabs_options
        fm get_source_and_line inline_text nested_parse
        (yaml : Type) (load_yaml : str -> result (list yaml))
        (check_type : yaml -> LoadError + LegacyTabsDefinition)
        (self : Self) (parsed : yaml) (more : list yaml)
        (loaded : LegacyTabsDefinition) :
  In (lit "tabs:") (content self) ->
  load_yaml (join [LF] (content self)) = Ok (parsed :: more) ->
  check_type parsed = inr loaded ->
  exists options children source line tabset,
    TabsDirective_run fm get_source_and_line inline_text nested_parse
                      yaml load_yaml check_type self =
      Ok [directive (lit "tabs") options children source line]
    /\ (forall pre suf, name self = pre ++ ch "-" :: suf -> ~ In (ch "-") pre ->
                        tabset = suf)
    /\ (~ In (ch "-") (name self) -> tabset = name self)
    /\ dict_get (lit "hidden") options =
         match hidden loaded with Some true => Some (OBool true) | _ => None end
    /\ (tabset = [] \/ tabset = lit "tabs" -> dict_get (lit "tabset") options = None)
    /\ (tabset <> [] -> tabset <> lit "tabs" ->
        dict_get (lit "tabset") options = Some (OStr tabset))
    /\ (forall k, k <> lit "hidden" -> k <> lit "tabset" -> dict_get k options = None).
Proof.
  intros Htabs Hload Hcheck. apply has_tabs_line_iff in Htabs.
  unfold TabsDirective_run. rewrite Htabs.
  rewrite (migrate_legacy_tabs_ok _ _ _ _ _ _ _ _ _ _ Hload Hcheck).
  do 4 eexists. exists (last (split1 (ch "-") (name self)) []).
  split; [reflexivity|]. split; [|split].
  - intros pre suf -> Hpre. now rewrite split1_at_first.
  - intros Hno. now rewrite split1_no_sep.
  - exact (legacy_options (hidden loaded) (last (split1 (ch "-") (name self)) [])).
Qed.

Lemma legacy_tabs_options_witness :
  exists options children source line tabset,
    TabsDirective_run field_marker plain_source_and_line plain_inline_text
                      plain_nested_parse unit (fun _ => Ok [tt])
                      (fun _ => inr two_tabs) plain_tabs_self =
      Ok [directive (lit "tabs") options children source line]
    /\ (forall pre suf, name plain_tabs_self = pre ++ ch "-" :: suf ->
                        ~ In (ch "-") pre -> tabset = suf)
    /\ (~ In (ch "-") (name plain_tabs_self) -> tabset = name plain_tabs_self)
    /\ dict_get (lit "hidden") options =
         match hidden two_tabs with Some true => Some (OBool true) | _ => None end
    /\ (tabset = [] \/ tabset = lit "tabs" -> dict_get (lit "tabset") options = None)
    /\ (tabset <> [] -> tabset <> lit "tabs" ->
        dict_get (lit "tabset") options = Some (OStr tabset))
    /\ (forall k, k <> lit "hidden" -> k <> lit "tabset" -> dict_get k options = None).
Proof.
  apply (legacy_tabs_options
           field_marker plain_source_and_line plain_inline_text
           plain_nested_parse unit (fun _ => Ok [tt]) (fun _ => inr two_tabs)
           plain_tabs_self tt [] two_tabs).
  - vm_compute. auto.
  - reflexivity.
  - reflexivity.
Defined.

(** X12: the migration gives the [tabs] node one child per legacy item, in
    the order of the items, for any number of items: the child of an item
    is a directive named [tab] without options, at the line of the
    directive plus the item's offset, whose first child is the argument
    made of the item's id and whose other children are parsed from the
    item's content after re-basing. *)
Theorem legacy_tabs_children
        fm get_source_and_line inline_text nested_parse
        (yaml : Type) (load_yaml : str -> result (list yaml))
        (check_type : yaml -> LoadError + LegacyTabsDefinition)
        (self : Self) (parsed : yaml) (more : list yaml)
        (loaded : LegacyTabsDefinition) :
  In (lit "tabs:") (content self) ->
  load_yaml (join [LF] (content self)) = Ok (parsed :: more) ->
  check_type parsed = inr loaded ->
  exists options children source line,
    TabsDirective_run fm get_source_and_line inline_text nested_parse
                      yaml load_yaml check_type self =
      Ok [directive (lit "tabs") options children source line]
    /\ get_source_and_line (lineno self) = (source, line)
    /\ length children = length (tabs loaded)
    /\ forall i item, nth_error (tabs loaded) i = Some item ->
         exists textnodes,
           nth_error children i =
           Some (directive (lit "tab") []
                   (directive_argument (id item) textnodes source
                                       (lineno self + tab_line item)
                    :: nested_parse (prepare_viewlist (tab_content item) 1)
                                    (line_offset self))
                   source (lineno self + tab_line item)).
Proof.
  intros Htabs Hload Hcheck. apply has_tabs_line_iff in Htabs.
  unfold TabsDirective_run. rewrite Htabs.
  rewrite (migrate_legacy_tabs_ok _ _ _ _ _ _ _ _ _ _ Hload Hcheck).
  destruct (get_source_and_line (lineno self)) as [source line]. cbn [fst snd].
  do 2 eexists. exists source, line.
  split; [reflexivity|]. split; [reflexivity|]. split; [apply length_map|].
  intros i item Hi. rewrite nth_error_map, Hi. cbn [option_map].
  unfold make_tab_node.
  destruct (inline_text (id item) (lineno self + tab_line item)%Z)
    as [textnodes messages].
  now exists textnodes.
Qed.

Lemma legacy_tabs_children_witness :
  exists options children source line,
    TabsDirective_run field_marker plain_source_and_line plain_inline_text
                      plain_nested_parse unit (fun _ => Ok [tt])
                      (fun _ => inr two_tabs) legacy_tabs_self =
      Ok [directive (lit "tabs") options children source line]
    /\ plain_source_and_line (lineno legacy_tabs_self) = (source, line)
    /\ length children = length (tabs two_tabs)
    /\ forall i item, nth_error (tabs two_tabs) i = Some item ->
         exists textnodes,
           nth_error children i =
           Some (directive (lit "tab") []
                   (directive_argument (id item) textnodes source
                                       (lineno legacy_tabs_self + tab_line item)
                    :: plain_nested_parse (prepare_viewlist (tab_content item) 1)
                                          (line_offset legacy_tabs_self))
                   source (lineno legacy_tabs_self + tab_line item)).
Proof.
  apply (legacy_tabs_children
           field_marker plain_source_and_line plain_inline_text
           plain_nested_parse unit (fun _ => Ok [tt]) (fun _ => inr two_tabs)
           legacy_tabs_self tt [] two_tabs).
  - vm_compute. auto.
  - reflexivity.
  - reflexivity.
Defined.

(** ** Blocks of options and blocks without options *)

Lemma po_loop_blank fm (blanks : list str) : forall (i : nat) (st : po_state),
  Forall (fun l => blank l = true) blanks ->
  po_loop fm i blanks st = Ok (Continue st).
Proof.
  induction blanks as [|l blanks IH]; intros i st H; cbn [po_loop]; auto.
  inversion H as [|? ? Hl Hrest]; subst.
  rewrite po_body_skips; auto.
  right. unfold blank in Hl. now destruct (strip l).
Qed.

(** X14: when the first non-blank line after the invocation line is no
    field marker, option recovery stops there and gives the empty mapping,
    whatever the indentation of that line and whatever follows it, field
    markers included. *)
Theorem content_first_means_no_option
        fm (block_text invocation : str) (blanks : list str) (l : str)
        (following : list str) :
  split LF block_text = invocation :: blanks ++ l :: following ->
  Forall (fun x => blank x = true) blanks ->
  blank l = false -> re_match fm (strip l) = None ->
  parse_options fm block_text = Ok [].
Proof.
  intros Hsplit Hblanks Hl Hfm. unfold parse_options.
  rewrite Hsplit, po_loop_first_line, po_loop_app, po_loop_blank by assumption.
  cbn [po_loop].
  rewrite po_body_eq;
    [|lia|unfold blank in Hl; destruct (strip l); [discriminate|discriminate]].
  cbv zeta. rewrite Hfm. cbn [po_init base_indentation Z.eqb].
  now rewrite Z.eqb_refl.
Qed.

Lemma content_first_means_no_option_witness :
  parse_options field_marker
    (lit ".. note::" ++ [LF; LF] ++ lit "   Some text" ++ [LF]
     ++ lit "   :field: looks like an option") = Ok [].
Proof.
  apply (content_first_means_no_option field_marker _ (lit ".. note::") [[]]
           (lit "   Some text") [lit "   :field: looks like an option"]).
  - vm_compute. reflexivity.
  - repeat constructor.
  - reflexivity.
  - vm_compute. reflexivity.
Defined.

Lemma po_loop_markers_keep fm (k v : str) (lines : list str) :
  forall (i : nat) (st : po_state),
  i <> 0%nat ->
  Forall (fun x => blank x = false
                   /\ exists m, re_match fm (strip x) = Some m /\ marker_key m <> k)
         lines ->
  dict_get k (kv st) = Some v ->
  exists st', po_loop fm i lines st = Ok (Continue st')
              /\ dict_get k (kv st') = Some v.
Proof.
  induction lines as [|x lines IH]; intros i st Hi Hall Hget; cbn [po_loop].
  - now exists st.
  - inversion Hall as [|? ? [Hx (m & Hm & Hk)] Hrest]; subst.
    rewrite po_body_eq; [|assumption|unfold blank in Hx; now destruct (strip x)].
    cbv zeta. rewrite Hm.
    apply IH; auto. cbn [kv]. rewrite dict_get_set_other; auto.
Qed.

Lemma po_loop_markers fm (lines : list str) : forall (i : nat) (st : po_state),
  i <> 0%nat ->
  Forall (fun x => blank x = false /\ exists m, re_match fm (strip x) = Some m)
         lines ->
  exists st', po_loop fm i lines st = Ok (Continue st').
Proof.
  induction lines as [|x lines IH]; intros i st Hi Hall; cbn [po_loop].
  - now exists st.
  - inversion Hall as [|? ? [Hx (m & Hm)] Hrest]; subst.
    rewrite po_body_eq; [|assumption|unfold blank in Hx; now destruct (strip x)].
    cbv zeta. rewrite Hm. apply IH; auto.
Qed.

(** X15: in a block all of whose lines after the first are field markers,
    at any indentations, recovery reads every line, and a key has the value
    of the last line that carries it. *)
Theorem last_marker_line_wins
        fm (block_text invocation : str) (before : list str) (l : str)
        (after : list str) (m : Match) :
  split LF block_text = invocation :: before ++ l :: after ->
  Forall (fun x => blank x = false /\ exists mx, re_match fm (strip x) = Some mx)
         before ->
  blank l = false -> re_match fm (strip l) = Some m ->
  Forall (fun x => blank x = false
                   /\ exists mx, re_match fm (strip x) = Some mx
                                 /\ marker_key mx <> marker_key m)
         after ->
  exists options,
    parse_options fm block_text = Ok options
    /\ dict_get (marker_key m) options = Some (marker_value m (strip l)).
Proof.
  intros Hsplit Hbefore Hl Hm Hafter. unfold parse_options.
  rewrite Hsplit, po_loop_first_line, po_loop_app.
  destruct (po_loop_markers fm before 1 po_init ltac:(discriminate) Hbefore)
    as [st ->].
  cbn [po_loop].
  rewrite po_body_eq; [|lia|unfold blank in Hl; now destruct (strip l)].
  cbv zeta. rewrite Hm.
  edestruct (po_loop_markers_keep fm (marker_key m) (marker_value m (strip l)) after)
    as (st' & -> & Hget); [|exact Hafter| |].
  - lia.
  - cbn [kv]. apply dict_get_set_same.
  - cbn [bind flow_state]. now eexists.
Qed.

Lemma last_marker_line_wins_witness :
  exists options,
    parse_options field_marker
      (lit ".. figure:: x" ++ [LF] ++ lit "   :alt: one" ++ [LF]
       ++ lit "      :alt: two" ++ [LF] ++ lit " :width: 10") = Ok options
    /\ dict_get (marker_key (MkMatch (lit ":alt: ") [])) options =
       Some (marker_value (MkMatch (lit ":alt: ") []) (strip (lit "      :alt: two"))).
Proof.
  apply (last_marker_line_wins field_marker _ (lit ".. figure:: x")
           [lit "   :alt: one"] (lit "      :alt: two") [lit " :width: 10"]
           (MkMatch (lit ":alt: ") [])).
  - vm_compute. reflexivity.
  - repeat constructor. eexists. vm_compute. reflexivity.
  - reflexivity.
  - vm_compute. reflexivity.
  - repeat constructor. eexists. split; [vm_compute; reflexivity|].
    vm_compute. discriminate.
Defined.
